(** * js-moi-sdk: interaction serializer and manifest coder

    A shallow embedding of two modules of the SDK:

    - [serializer.js]: [processFunds], [processParticipants],
      [processTransactions], [processIxObject], [serializeIxObject];
    - [manifest.js]: [ManifestCoder.encodeManifest], [parseCalldata],
      [encodeArguments], [decodeArguments], [decodeOutput],
      [decodeEventOutput], [decodeException];
    - the signer module: the [Signer] class, its constructor, [Sign] and
      [Verify].

    JavaScript exceptions are modelled by the [result] monad, a JS [Map] by an
    insertion-ordered association list, in-place mutation of schema nodes by
    returning the rewritten node next to the value. *)

From Stdlib Require Import ZArith List String Ascii Bool Lia.
From Stdlib.Strings Require Import Byte.
Import ListNotations.
Open Scope string_scope.
Open Scope list_scope.

Set Implicit Arguments.
Set Warnings "-register-all".

(* ================================================================== *)
(** * Exceptions *)

Inductive ErrorCode :=
| UNKNOWN_ERROR
| INVALID_ARGUMENT
| MISSING_ARGUMENT
| UNSUPPORTED_OPERATION.

(** What a [throw] carries.  [TypeError] is the native error raised by the
    engine (property access on [undefined], calling a missing method);
    [CustomError] is what [ErrorUtils.throwError(message, code, params)]
    raises, [originalError] being [params.originalError]; [PlainError] is
    [new Error(message)]. *)
Inductive error :=
| TypeError (message : string)
| PlainError (message : string)
| CustomError (message : string) (code : ErrorCode) (originalError : option error).

Inductive result (A : Type) :=
| Ok (a : A)
| Throw (e : error).
Arguments Ok {A} a.
Arguments Throw {A} e.

Definition bind {A B} (m : result A) (k : A -> result B) : result B :=
  match m with
  | Ok a => k a
  | Throw e => Throw e
  end.

Notation "x <- m ;; k" := (bind m (fun x => k))
  (at level 61, m at next level, right associativity).
Notation "' p <- m ;; k" := (bind m (fun x => let 'p := x in k))
  (at level 61, p pattern, m at next level, right associativity).

(** [try { body } catch (err) { ErrorUtils.throwError(message, code, { originalError: err }) }] *)
Definition try_wrap {A} (message : string) (code : ErrorCode) (body : result A) : result A :=
  match body with
  | Ok a => Ok a
  | Throw err => Throw (CustomError message code (Some err))
  end.

(** The innermost error of a chain of [originalError] links. *)
Fixpoint root_cause (e : error) : error :=
  match e with
  | CustomError _ _ (Some inner) => root_cause inner
  | _ => e
  end.

(** [Array.prototype.forEach] with a callback that updates a store and may throw. *)
Fixpoint forEach {S X} (f : S -> X -> result S) (xs : list X) (s : S) : result S :=
  match xs with
  | [] => Ok s
  | x :: rest => s' <- f s x ;; forEach f rest s'
  end.

(** [Array.prototype.map] with a callback that may throw. *)
Fixpoint mapM {X Y} (f : X -> result Y) (xs : list X) : result (list Y) :=
  match xs with
  | [] => Ok []
  | x :: rest => y <- f x ;; ys <- mapM f rest ;; Ok (y :: ys)
  end.

(* ================================================================== *)
(** * Hex helpers of js-moi-utils *)

Module Hex.

(** Modelled from the spec: [trimHexPrefix] of js-moi-utils is not part of the
    sources at hand; it strips one leading "0x" marker and leaves any other
    string as it is. *)
Definition trimHexPrefix (s : string) : string :=
  match s with
  | String a (String b rest) =>
      if Ascii.eqb a "0" && Ascii.eqb b "x" then rest else s
  | _ => s
  end.

Definition hexDigit (c : ascii) : option N :=
  let n := N_of_ascii c in
  if (48 <=? n)%N && (n <=? 57)%N then Some (n - 48)%N
  else if (97 <=? n)%N && (n <=? 102)%N then Some (n - 87)%N
  else if (65 <=? n)%N && (n <=? 70)%N then Some (n - 55)%N
  else None.

Definition byteOfN (n : N) : byte :=
  match Byte.of_N n with
  | Some b => b
  | None => x00
  end.

Fixpoint parseHex (s : string) : option (list byte) :=
  match s with
  | EmptyString => Some []
  | String hi (String lo rest) =>
      match hexDigit hi, hexDigit lo, parseHex rest with
      | Some h, Some l, Some bs => Some (byteOfN (16 * h + l) :: bs)
      | _, _, _ => None
      end
  | String _ EmptyString => None
  end.

(** Modelled from the spec: [hexToBytes] of js-moi-utils is not part of the
    sources at hand; it converts a hex string, with or without the "0x"
    marker, to raw bytes, two digits per byte, and rejects a string that is
    not hexadecimal. *)
Definition hexToBytes (s : string) : result (list byte) :=
  match parseHex (trimHexPrefix s) with
  | Some bs => Ok bs
  | None => Throw (CustomError "Invalid hex string" INVALID_ARGUMENT None)
  end.

Definition nibbleChar (n : N) : ascii :=
  if (n <? 10)%N then ascii_of_N (48 + n) else ascii_of_N (87 + n).

(** Modelled from the spec: [bytesToHex] of js-moi-utils is not part of the
    sources at hand; it prints two lower-case hex digits per byte, without
    the "0x" marker. *)
Fixpoint bytesToHex (bs : list byte) : string :=
  match bs with
  | [] => EmptyString
  | b :: rest =>
      let n := Byte.to_N b in
      String (nibbleChar (n / 16)) (String (nibbleChar (n mod 16)) (bytesToHex rest))
  end.

(** [String.prototype.slice(n)]: the string without its first [n] characters. *)
Fixpoint slice (n : nat) (s : string) : string :=
  match n, s with
  | O, _ => s
  | S n', String _ rest => slice n' rest
  | S _, EmptyString => EmptyString
  end.

End Hex.
Import Hex.

(* ================================================================== *)
(** * The JS [Map], keyed by strings

    A [Map] iterates in insertion order and [set] on a key that is present
    replaces the value where the key stands. *)

Module JsMap.
Section JsMap.
Variable V : Type.

Definition t := list (string * V).

Fixpoint get (k : string) (m : t) : option V :=
  match m with
  | [] => None
  | (k', v) :: rest => if String.eqb k k' then Some v else get k rest
  end.

Definition has (k : string) (m : t) : bool :=
  match get k m with
  | Some _ => true
  | None => false
  end.

Fixpoint set (k : string) (v : V) (m : t) : t :=
  match m with
  | [] => [(k, v)]
  | (k', v') :: rest =>
      if String.eqb k k' then (k, v) :: rest else (k', v') :: set k v rest
  end.

Definition keys (m : t) : list string := map fst m.
Definition values (m : t) : list V := map snd m.
End JsMap.
Arguments get {V} k m.
Arguments has {V} k m.
Arguments set {V} k v m.
Arguments keys {V} m.
Arguments values {V} m.
End JsMap.

(* ================================================================== *)
(** * Interaction objects *)

(** A JS numeric value: a [number] (integral values only; the floating point
    rounding of sums above 2^53 is outside the model) or a [bigint]. *)
Inductive numeric :=
| Num (n : Z)
| Big (n : Z).

Definition isBigint (a : numeric) : bool :=
  match a with
  | Big _ => true
  | Num _ => false
  end.

Definition toZ (a : numeric) : Z :=
  match a with
  | Num n => n
  | Big n => n
  end.

(** Modelled from the spec: the [TxType] enumeration of js-moi-utils is not
    part of the sources at hand; these are the seven members the serializer
    dispatches on, [TX_OTHER] stands for every other member. *)
Inductive TxType :=
| ASSET_TRANSFER
| ASSET_CREATE
| ASSET_MINT
| ASSET_BURN
| LOGIC_DEPLOY
| LOGIC_INVOKE
| LOGIC_ENLIST
| TX_OTHER (code : N).

(** Modelled from the spec: the [LockType] enumeration of js-moi-utils. *)
Inductive LockType :=
| MUTATE_LOCK
| READ_LOCK
| NO_LOCK.

(** The payload shapes the serializer reads fields of. *)
Inductive TxPayload :=
| AssetCreatePayload (symbol : string) (supply : numeric)
| AssetSupplyPayload (asset_id : string) (amount : numeric)
| AssetActionPayload (beneficiary : string) (asset_id : string) (amount : numeric)
| LogicPayload (logic_id : option string) (callsite : string) (calldata : string).

Record IxTransaction := {
  tx_type : TxType;
  tx_payload : option TxPayload
}.

Record AssetFund := {
  fund_asset_id : string;
  fund_amount : numeric
}.

Record IxParticipant := {
  participant_address : string;
  participant_lock_type : LockType
}.

Record InteractionObject := {
  sender : string;
  payer : option string;
  nonce : numeric;
  fuel_price : numeric;
  fuel_limit : numeric;
  funds : option (list AssetFund);
  participants : option (list IxParticipant);
  transactions : list IxTransaction
}.

Record ProcessedIxAssetFund := {
  p_asset_id : string;
  p_amount : numeric
}.

Record ProcessedIxParticipant := {
  p_address : list byte;
  p_lock_type : LockType
}.

Record ProcessedIxTransaction := {
  p_type : TxType;
  p_payload : list byte
}.

Record ProcessedIxObject := {
  p_sender : list byte;
  p_payer : list byte;
  p_nonce : numeric;
  p_fuel_price : numeric;
  p_fuel_limit : numeric;
  p_funds : list ProcessedIxAssetFund;
  p_transactions : list ProcessedIxTransaction;
  p_participants : list ProcessedIxParticipant
}.

(** Property reads on a payload; [None] is [undefined]. *)
Definition payload_asset_id (p : TxPayload) : option string :=
  match p with
  | AssetSupplyPayload a _ => Some a
  | AssetActionPayload _ a _ => Some a
  | _ => None
  end.

Definition payload_amount (p : TxPayload) : option numeric :=
  match p with
  | AssetSupplyPayload _ n => Some n
  | AssetActionPayload _ _ n => Some n
  | _ => None
  end.

Definition payload_beneficiary (p : TxPayload) : option string :=
  match p with
  | AssetActionPayload b _ _ => Some b
  | _ => None
  end.

Definition payload_logic_id (p : TxPayload) : option string :=
  match p with
  | LogicPayload l _ _ => l
  | _ => None
  end.

(** Reading a property of a payload that is [undefined] or [null]. *)
Definition readPayload (tx : IxTransaction) : result TxPayload :=
  match tx_payload tx with
  | Some p => Ok p
  | None => Throw (TypeError "Cannot read properties of undefined")
  end.

(** A string helper applied to [undefined]. *)
Definition asString (field : option string) : result string :=
  match field with
  | Some s => Ok s
  | None => Throw (TypeError "Cannot read properties of undefined")
  end.

(** Modelled from the spec: [ZERO_ADDRESS] of js-moi-constants is not part of
    the sources at hand; the well-known zero address, 32 zero bytes in
    prefixed hex. *)
Definition ZERO_ADDRESS : string :=
  "0x0000000000000000000000000000000000000000000000000000000000000000".

(* ------------------------------------------------------------------ *)
(** ** processFunds *)

(** The callback of [ixObject.transactions.forEach] in [processFunds]. *)
Definition fundsStep (assetFunds : JsMap.t numeric) (transaction : IxTransaction)
  : result (JsMap.t numeric) :=
  match tx_type transaction with
  | ASSET_TRANSFER | ASSET_BURN =>
      payload <- readPayload transaction ;;
      let amount :=
        match payload_asset_id payload with
        | Some id =>
            match JsMap.get id assetFunds with
            | Some a => a
            | None => Num 0
            end
        | None => Num 0
        end in
      key <- asString (payload_asset_id payload) ;;
      match payload_amount payload with
      | Some pa =>
          if isBigint pa || isBigint amount
          then Ok (JsMap.set (trimHexPrefix key) (Big (toZ pa + toZ amount)) assetFunds)
          else Ok (JsMap.set (trimHexPrefix key) (Num (toZ pa + toZ amount)) assetFunds)
      | None => Throw (TypeError "Cannot read properties of undefined")
      end
  | _ => Ok assetFunds
  end.

(** The callback of [ixObject.funds.forEach]. *)
Definition suppliedFundStep (assetFunds : JsMap.t numeric) (assetFund : AssetFund)
  : JsMap.t numeric :=
  if negb (JsMap.has (trimHexPrefix (fund_asset_id assetFund)) assetFunds)
  then JsMap.set (trimHexPrefix (fund_asset_id assetFund)) (fund_amount assetFund) assetFunds
  else assetFunds.

Definition impliedFunds (ixObject : InteractionObject) : result (JsMap.t numeric) :=
  forEach fundsStep (transactions ixObject) [].

Definition mergeSuppliedFunds (supplied : option (list AssetFund)) (assetFunds : JsMap.t numeric)
  : JsMap.t numeric :=
  match supplied with
  | Some fs => fold_left suppliedFundStep fs assetFunds
  | None => assetFunds
  end.

Definition fundEntry (e : string * numeric) : ProcessedIxAssetFund :=
  {| p_asset_id := fst e; p_amount := snd e |}.

Definition processFunds (ixObject : InteractionObject) : result (list ProcessedIxAssetFund) :=
  assetFunds <- impliedFunds ixObject ;;
  Ok (map fundEntry (mergeSuppliedFunds (funds ixObject) assetFunds)).

(* ------------------------------------------------------------------ *)
(** ** processParticipants *)

Definition mutate (address : list byte) : ProcessedIxParticipant :=
  {| p_address := address; p_lock_type := MUTATE_LOCK |}.

(** The callback of [ixObject.transactions.forEach] in [processParticipants]. *)
Definition participantStep (ps : JsMap.t ProcessedIxParticipant) (transaction : IxTransaction)
  : result (JsMap.t ProcessedIxParticipant) :=
  match tx_type transaction with
  | ASSET_CREATE => Ok ps
  | ASSET_MINT | ASSET_BURN =>
      assetSupplyPayload <- readPayload transaction ;;
      id <- asString (payload_asset_id assetSupplyPayload) ;;
      let address := slice 8 (trimHexPrefix id) in
      bytes <- hexToBytes address ;;
      Ok (JsMap.set address (mutate bytes) ps)
  | ASSET_TRANSFER =>
      assetActionPayload <- readPayload transaction ;;
      beneficiary <- asString (payload_beneficiary assetActionPayload) ;;
      bytes <- hexToBytes beneficiary ;;
      Ok (JsMap.set beneficiary (mutate bytes) ps)
  | LOGIC_DEPLOY => Ok ps
  | LOGIC_ENLIST | LOGIC_INVOKE =>
      logicPayload <- readPayload transaction ;;
      id <- asString (payload_logic_id logicPayload) ;;
      let address := slice 6 (trimHexPrefix id) in
      bytes <- hexToBytes address ;;
      Ok (JsMap.set address (mutate bytes) ps)
  | TX_OTHER _ => Throw (CustomError "Unsupported Ix type" INVALID_ARGUMENT None)
  end.

(** The callback of [ixObject.participants.forEach]. *)
Definition suppliedParticipantStep (ps : JsMap.t ProcessedIxParticipant) (participant : IxParticipant)
  : result (JsMap.t ProcessedIxParticipant) :=
  let address := trimHexPrefix (participant_address participant) in
  if negb (JsMap.has address ps)
  then
    bytes <- hexToBytes (participant_address participant) ;;
    Ok (JsMap.set address
          {| p_address := bytes; p_lock_type := participant_lock_type participant |} ps)
  else Ok ps.

Definition participantMap (ixObject : InteractionObject)
  : result (JsMap.t ProcessedIxParticipant) :=
  senderBytes <- hexToBytes (sender ixObject) ;;
  let ps0 := JsMap.set (trimHexPrefix (sender ixObject)) (mutate senderBytes) [] in
  ps1 <- match payer ixObject with
         | Some p =>
             payerBytes <- hexToBytes p ;;
             Ok (JsMap.set (trimHexPrefix p) (mutate payerBytes) ps0)
         | None => Ok ps0
         end ;;
  ps2 <- forEach participantStep (transactions ixObject) ps1 ;;
  match participants ixObject with
  | Some supplied => forEach suppliedParticipantStep supplied ps2
  | None => Ok ps2
  end.

Definition processParticipants (ixObject : InteractionObject)
  : result (list ProcessedIxParticipant) :=
  ps <- participantMap ixObject ;;
  Ok (JsMap.values ps).

(* ------------------------------------------------------------------ *)
(** ** processTransactions, processIxObject, serializeIxObject *)

Section Serializer.
(** [serializePayload] of js-moi-providers and the POLO writer of js-polo
    under [ixObjectSchema]: both live outside the sources at hand and are
    taken as they come. *)
Variable serializePayload : TxType -> TxPayload -> result (list byte).
Variable polorizeIxObject : ProcessedIxObject -> result (list byte).

Definition processTransaction (transaction : IxTransaction) : result ProcessedIxTransaction :=
  match tx_payload transaction with
  | None => Throw (CustomError "Payload is missing!" MISSING_ARGUMENT None)
  | Some p =>
      payload <- serializePayload (tx_type transaction) p ;;
      Ok {| p_type := tx_type transaction; p_payload := payload |}
  end.

Definition processTransactions (txs : list IxTransaction) : result (list ProcessedIxTransaction) :=
  mapM processTransaction txs.

Definition processIxObject (ixObject : InteractionObject) : result ProcessedIxObject :=
  try_wrap "Failed to process interaction object" UNKNOWN_ERROR
    (senderBytes <- hexToBytes (sender ixObject) ;;
     payerBytes <- hexToBytes ZERO_ADDRESS ;;
     fs <- processFunds ixObject ;;
     txs <- processTransactions (transactions ixObject) ;;
     ps <- processParticipants ixObject ;;
     Ok {| p_sender := senderBytes;
           p_payer := payerBytes;
           p_nonce := nonce ixObject;
           p_fuel_price := fuel_price ixObject;
           p_fuel_limit := fuel_limit ixObject;
           p_funds := fs;
           p_transactions := txs;
           p_participants := ps |}).

Definition serializeIxObject (ixObject : InteractionObject) : result (list byte) :=
  try_wrap "Failed to serialize interaction object" UNKNOWN_ERROR
    (processedIxObject <- processIxObject ixObject ;;
     polorizeIxObject processedIxObject).
End Serializer.

(* ================================================================== *)
(** * The manifest coder *)

(** Values handed to and returned by the coder. *)
Inductive value :=
| VUndefined
| VNull
| VBool (b : bool)
| VNumber (n : Z)
| VBigInt (n : Z)
| VString (s : string)
| VBytes (bs : list byte)
| VArray (items : list value)
| VMap (entries : list (value * value))
| VObject (props : list (string * value)).

(** Induction on values, through the lists they nest. *)
Section ValueInduction.
Variable P : value -> Prop.
Hypothesis HUndefined : P VUndefined.
Hypothesis HNull : P VNull.
Hypothesis HBool : forall b, P (VBool b).
Hypothesis HNumber : forall n, P (VNumber n).
Hypothesis HBigInt : forall n, P (VBigInt n).
Hypothesis HString : forall s, P (VString s).
Hypothesis HBytes : forall bs, P (VBytes bs).
Hypothesis HArray : forall items, Forall P items -> P (VArray items).
Hypothesis HMap :
  forall entries, Forall (fun e => P (fst e) /\ P (snd e)) entries -> P (VMap entries).
Hypothesis HObject :
  forall props, Forall (fun e => P (snd e)) props -> P (VObject props).

Fixpoint value_nested_ind (v : value) : P v :=
  match v with
  | VUndefined => HUndefined
  | VNull => HNull
  | VBool b => HBool b
  | VNumber n => HNumber n
  | VBigInt n => HBigInt n
  | VString s => HString s
  | VBytes bs => HBytes bs
  | VArray items =>
      HArray
        ((fix go (l : list value) : Forall P l :=
            match l with
            | [] => Forall_nil _
            | x :: r => Forall_cons _ (value_nested_ind x) (go r)
            end) items)
  | VMap entries =>
      HMap
        ((fix go (l : list (value * value)) : Forall (fun e => P (fst e) /\ P (snd e)) l :=
            match l with
            | [] => Forall_nil _
            | (k, x) :: r =>
                @Forall_cons _ _ (k, x) r (conj (value_nested_ind k) (value_nested_ind x)) (go r)
            end) entries)
  | VObject props =>
      HObject
        ((fix go (l : list (string * value)) : Forall (fun e => P (snd e)) l :=
            match l with
            | [] => Forall_nil _
            | (k, x) :: r => @Forall_cons _ _ (k, x) r (value_nested_ind x) (go r)
            end) props)
  end.
End ValueInduction.

(** Modelled from the spec: the schema kinds of the Schema Resolver, which is
    not part of the sources at hand. *)
Inductive Kind :=
| KInteger
| KBigint
| KString
| KBytes
| KBoolean
| KArray
| KMap
| KStruct
| KDocument.

(** A schema node [{ kind, fields }].  [fields] is a plain object: an array
    node keeps its element schema under "values", a map node under "keys" and
    "values", a struct node under the labels of its fields; [None] is a node
    without [fields]. *)
Inductive Schema :=
| Node (kind : Kind) (fields : option (list (string * Schema))).

Definition kindOf (s : Schema) : Kind :=
  match s with Node k _ => k end.

Definition fieldsOf (s : Schema) : option (list (string * Schema)) :=
  match s with Node _ f => f end.

(** [parsableKinds.includes(kind)] *)
Definition parsable (k : Kind) : bool :=
  match k with
  | KBytes | KArray | KMap | KStruct => true
  | _ => false
  end.

(** [schema.fields[key]] read as a schema: the read of [fields] on a node
    without it, and the later read of [kind] on [undefined], both raise. *)
Definition fieldSchema (s : Schema) (key : string) : result Schema :=
  match fieldsOf s with
  | None => Throw (TypeError "Cannot read properties of undefined")
  | Some fs =>
      match JsMap.get key fs with
      | Some child => Ok child
      | None => Throw (TypeError "Cannot read properties of undefined")
      end
  end.

(** The node after its child under [key] has been mutated into [child]. *)
Definition withField (s : Schema) (key : string) (child : Schema) : Schema :=
  match s with
  | Node k (Some fs) => Node k (Some (JsMap.set key child fs))
  | Node k None => s
  end.

(** [reconstructSchema]: every immediate struct field of the (copied) node
    has its kind set to document; the field keeps its own [fields]. *)
Definition reconstructSchema (s : Schema) : result Schema :=
  match s with
  | Node k (Some fs) =>
      Ok (Node k (Some (map (fun e : string * Schema =>
                               match snd e with
                               | Node KStruct f => (fst e, Node KDocument f)
                               | _ => e
                               end) fs)))
  | Node _ None => Throw (TypeError "Cannot convert undefined or null to object")
  end.

(** The keys of a JS [Map] compare by value when they are primitive and by
    identity when they are objects; the objects met here are distinct. *)
Definition sameKey (a b : value) : bool :=
  match a, b with
  | VUndefined, VUndefined => true
  | VNull, VNull => true
  | VBool x, VBool y => Bool.eqb x y
  | VNumber x, VNumber y => Z.eqb x y
  | VBigInt x, VBigInt y => Z.eqb x y
  | VString x, VString y => String.eqb x y
  | _, _ => false
  end.

Fixpoint mapSet (k v : value) (m : list (value * value)) : list (value * value) :=
  match m with
  | [] => [(k, v)]
  | (k', v') :: rest =>
      if sameKey k k' then (k', v) :: rest else (k', v') :: mapSet k v rest
  end.

Definition isLast {A} (rest : list A) : bool :=
  match rest with [] => true | _ => false end.

(** What [documentEncode] of js-polo returns: [getData()] and [bytes()]. *)
Record Document := {
  getData : value;
  bytes : list byte
}.

Record Field := {
  label : string;
  type : string;
  slot : nat
}.

Record Routine := {
  routine_name : string;
  accepts : option (list Field);
  returns : option (list Field)
}.

Record EventData := {
  event_name : string;
  event_fields : list Field
}.

(** The argument a field takes: [args[field.slot]]. *)
Definition argOf (args : list value) (field : Field) : value :=
  nth (slot field) args VUndefined.

(** A routine given by name or as an object. *)
Inductive RoutineRef :=
| ByName (name : string)
| ByObject (routine : Routine).

(** [decoded[label]] *)
Definition getProperty (v : value) (key : string) : result value :=
  match v with
  | VObject props =>
      match JsMap.get key props with
      | Some x => Ok x
      | None => Ok VUndefined
      end
  | VUndefined | VNull => Throw (TypeError "Cannot read properties of undefined")
  | _ => Ok VUndefined
  end.

Section ManifestCoder.
(** js-polo: the document writer and the reader. *)
Variable documentEncode : value -> Schema -> result Document.
Variable depolorize : list byte -> Schema -> result value.
(** The Schema Resolver's reading of one type descriptor. *)
Variable parseDataType : string -> result Schema.
(** The element descriptor built from the manifest. *)
Variable getRoutineElement : string -> result Routine.
Variable getEventElement : string -> option EventData.
(** The fixed schema of the built-in log event (js-moi-utils). *)
Variable builtInLogEventSchema : Schema.

(** Modelled from the spec: [Schema.parseFields] is not part of the sources
    at hand; it resolves a field sequence to a struct node holding, under
    each label, the schema of the field's type descriptor. *)
Definition parseFields (fields : list Field) : result Schema :=
  entries <- forEach
               (fun (acc : list (string * Schema)) (f : Field) =>
                  s <- parseDataType (type f) ;; Ok (JsMap.set (label f) s acc))
               fields [] ;;
  Ok (Node KStruct (Some entries)).

Section Parse.
(** The recursive call [this.parseCalldata(schema, arg, updateType)]. *)
Variable self : Schema -> value -> bool -> result (value * Schema).

(** [parseArray]: every element goes through the one element schema;
    only the last one may rewrite it. *)
Fixpoint parseArray (schema : Schema) (arg : list value) : result (list value * Schema) :=
  match arg with
  | [] => Ok ([], schema)
  | v :: rest =>
      '(v', schema') <- self schema v (isLast rest) ;;
      '(rest', schema'') <- parseArray schema' rest ;;
      Ok (v' :: rest', schema'')
  end.

(** [parseMap]: the key, then the value, of each entry. *)
Fixpoint parseMap (schema : Schema) (entries : list (value * value))
    (map : list (value * value)) : result (list (value * value) * Schema) :=
  match entries with
  | [] => Ok (map, schema)
  | (key, v) :: rest =>
      keys <- fieldSchema schema "keys" ;;
      '(key', keys') <- self keys key (isLast rest) ;;
      let schema1 := withField schema "keys" keys' in
      values <- fieldSchema schema1 "values" ;;
      '(v', values') <- self values v (isLast rest) ;;
      let schema2 := withField schema1 "values" values' in
      parseMap schema2 rest (mapSet key' v' map)
  end.

(** The loop of [parseStruct] over [Object.keys(arg)]. *)
Fixpoint parseProps (schema : Schema) (props : list (string * value))
  : result (list (string * value) * Schema) :=
  match props with
  | [] => Ok ([], schema)
  | (key, v) :: rest =>
      child <- fieldSchema schema key ;;
      '(v', child') <- self child v false ;;
      '(rest', schema') <- parseProps (withField schema key child') rest ;;
      Ok ((key, v') :: rest', schema')
  end.
End Parse.

Definition outsideModel {A} : result A :=
  Throw (TypeError "argument shape outside the model").

(** [parseCalldata(schema, arg, updateType)]: the normalised value and the
    schema node as the call leaves it.  An argument whose shape does not
    fit the node's kind (no array under an array node, no [Map] under a map
    node, no plain object under a struct node) is outside the model and
    reported as a [TypeError]. *)
Fixpoint parseCalldata (schema : Schema) (arg : value) (updateType : bool) {struct arg}
  : result (value * Schema) :=
  match kindOf schema with
  | KString =>
      match arg with
      | VString s => Ok (VString (trimHexPrefix s), schema)
      | _ => Throw (TypeError "hex.startsWith is not a function")
      end
  | KBytes =>
      match arg with
      | VString s => bs <- hexToBytes s ;; Ok (VBytes bs, schema)
      | _ => Ok (arg, schema)
      end
  | KArray =>
      values <- fieldSchema schema "values" ;;
      if parsable (kindOf values) then
        match arg with
        | VArray items =>
            '(items', values') <- parseArray parseCalldata values items ;;
            Ok (VArray items', withField schema "values" values')
        | _ => outsideModel
        end
      else Ok (arg, schema)
  | KMap =>
      keys <- fieldSchema schema "keys" ;;
      toParse <- (if parsable (kindOf keys) then Ok true
                  else values <- fieldSchema schema "values" ;;
                       Ok (parsable (kindOf values))) ;;
      if toParse : bool then
        match arg with
        | VMap entries =>
            '(map, schema') <- parseMap parseCalldata schema entries [] ;;
            Ok (VMap map, schema')
        | _ => outsideModel
        end
      else Ok (arg, schema)
  | KStruct =>
      match arg with
      | VObject props =>
          '(props', schema') <- parseProps parseCalldata schema props ;;
          copy <- reconstructSchema schema' ;;
          doc <- documentEncode (VObject props') copy ;;
          if updateType
          then Ok (getData doc, Node KDocument None)
          else Ok (getData doc, schema')
      | _ => outsideModel
      end
  | _ => Ok (arg, schema)
  end.

Definition routineFields (routine : RoutineRef) (pick : Routine -> option (list Field))
  : result (option (list Field)) :=
  match routine with
  | ByName name => element <- getRoutineElement name ;; Ok (pick element)
  | ByObject r => Ok (pick r)
  end.

Definition orEmpty (fields : option (list Field)) : list Field :=
  match fields with Some fs => fs | None => [] end.

(** The callback of the [reduce] in [encodeArguments]: the accumulated
    calldata object and the schema as mutated so far. *)
Definition encodeStep (args : list value) (st : list (string * value) * Schema) (field : Field)
  : result (list (string * value) * Schema) :=
  let '(acc, schema) := st in
  child <- fieldSchema schema (label field) ;;
  '(v, child') <- parseCalldata child (argOf args field) true ;;
  Ok (JsMap.set (label field) v acc, withField schema (label field) child').

Definition encodeArguments (routine : RoutineRef) (args : list value) : result string :=
  fields <- routineFields routine accepts ;;
  schema <- parseFields (orEmpty fields) ;;
  match fields with
  | None => Throw (TypeError "Cannot convert undefined or null to object")
  | Some fs =>
      '(calldata, schema') <- forEach (encodeStep args) fs ([], schema) ;;
      doc <- documentEncode (VObject calldata) schema' ;;
      Ok ("0x" ++ bytesToHex (bytes doc))%string
  end.

Definition decodeArguments (routine : RoutineRef) (calldata : string) : result value :=
  fields <- routineFields routine accepts ;;
  match fields with
  | Some [] => Ok VNull
  | _ =>
      schema <- parseFields (orEmpty fields) ;;
      wire <- hexToBytes calldata ;;
      decodedCalldata <- depolorize wire schema ;;
      match fields with
      | None => Throw (TypeError "Cannot read properties of undefined (reading 'map')")
      | Some fs =>
          vs <- mapM (fun field => getProperty decodedCalldata (label field)) fs ;;
          Ok (VArray vs)
      end
  end.

(** A string is truthy when it is not empty. *)
Definition nonEmptyData (data : string) : bool :=
  negb (String.eqb data "") && negb (String.eqb data "0x").

Definition decodeOutput (routineOrCallsite : RoutineRef) (output : string) : result value :=
  fields <- routineFields routineOrCallsite returns ;;
  match fields with
  | Some (f :: fs) =>
      if nonEmptyData output then
        schema <- parseFields (f :: fs) ;;
        wire <- hexToBytes output ;;
        depolorize wire schema
      else Ok VNull
  | _ => Ok VNull
  end.

Definition decodeEventOutput (event : string) (logData : string) : result value :=
  if String.eqb event "builtin.Log" then
    wire <- hexToBytes logData ;;
    depolorize wire builtInLogEventSchema
  else
    match getEventElement event with
    | None => Throw (PlainError ("Event " ++ event ++ " not found in manifest")%string)
    | Some element =>
        if nonEmptyData logData then
          schema <- parseFields (event_fields element) ;;
          wire <- hexToBytes logData ;;
          depolorize wire schema
        else Ok VNull
    end.
End ManifestCoder.

(* ================================================================== *)
(** * A reference writer and reader

    js-polo is an external library.  The coder is verified against any writer
    and reader that undo each other; this self-delimiting format is one such
    pair, and the one the closed examples run on.  Every value starts with a
    tag byte; sequences put [x01] before each element and [x00] at the end. *)

Module RefCodec.

Fixpoint ser_pos (p : positive) : list byte :=
  match p with
  | xH => [x00]
  | xO q => x01 :: ser_pos q
  | xI q => x02 :: ser_pos q
  end.

Definition ser_Z (n : Z) : list byte :=
  match n with
  | Z0 => [x00]
  | Zpos p => x01 :: ser_pos p
  | Zneg p => x02 :: ser_pos p
  end.

Definition ser_seq (chunks : list (list byte)) : list byte :=
  List.concat (map (cons x01) chunks) ++ [x00].

Definition ser_bytes (bs : list byte) : list byte :=
  ser_seq (map (fun b => [b]) bs).

Definition ser_string (s : string) : list byte :=
  ser_bytes (list_byte_of_string s).

Fixpoint ser (v : value) : list byte :=
  match v with
  | VUndefined => [x00]
  | VNull => [x01]
  | VBool false => [x02; x00]
  | VBool true => [x02; x01]
  | VNumber n => x03 :: ser_Z n
  | VBigInt n => x04 :: ser_Z n
  | VString s => x05 :: ser_string s
  | VBytes bs => x06 :: ser_bytes bs
  | VArray items => x07 :: ser_seq (map ser items)
  | VMap entries =>
      x08 :: ser_seq (map (fun e => let '(k, x) := e in ser k ++ ser x) entries)
  | VObject props =>
      x09 :: ser_seq (map (fun e => let '(k, x) := e in ser_string k ++ ser x) props)
  end.

Definition reader (A : Type) := list byte -> option (A * list byte).

Fixpoint parse_pos (bs : list byte) : option (positive * list byte) :=
  match bs with
  | x00 :: r => Some (xH, r)
  | x01 :: r =>
      match parse_pos r with
      | Some (p, r') => Some (xO p, r')
      | None => None
      end
  | x02 :: r =>
      match parse_pos r with
      | Some (p, r') => Some (xI p, r')
      | None => None
      end
  | _ => None
  end.

Definition parse_Z : reader Z := fun bs =>
  match bs with
  | x00 :: r => Some (Z0, r)
  | x01 :: r =>
      match parse_pos r with
      | Some (p, r') => Some (Zpos p, r')
      | None => None
      end
  | x02 :: r =>
      match parse_pos r with
      | Some (p, r') => Some (Zneg p, r')
      | None => None
      end
  | _ => None
  end.

Fixpoint parse_bytes (bs : list byte) : option (list byte * list byte) :=
  match bs with
  | x00 :: r => Some ([], r)
  | x01 :: b :: r =>
      match parse_bytes r with
      | Some (l, r') => Some (b :: l, r')
      | None => None
      end
  | _ => None
  end.

Definition parse_string : reader string := fun bs =>
  match parse_bytes bs with
  | Some (l, r) => Some (string_of_list_byte l, r)
  | None => None
  end.

Definition pair_reader {A B} (p : reader A) (q : reader B) : reader (A * B) := fun bs =>
  match p bs with
  | Some (a, r) =>
      match q r with
      | Some (b, r') => Some ((a, b), r')
      | None => None
      end
  | None => None
  end.

Definition map_reader {A B} (f : A -> B) (p : reader A) : reader B := fun bs =>
  match p bs with
  | Some (a, r) => Some (f a, r)
  | None => None
  end.

Fixpoint parse_seq {A} (p : reader A) (fuel : nat) (bs : list byte)
  : option (list A * list byte) :=
  match fuel with
  | O => None
  | S k =>
      match bs with
      | x00 :: r => Some ([], r)
      | x01 :: r =>
          match p r with
          | Some (a, r') =>
              match parse_seq p k r' with
              | Some (l, r'') => Some (a :: l, r'')
              | None => None
              end
          | None => None
          end
      | _ => None
      end
  end.

Fixpoint parse (fuel : nat) (bs : list byte) : option (value * list byte) :=
  match fuel with
  | O => None
  | S k =>
      match bs with
      | x00 :: r => Some (VUndefined, r)
      | x01 :: r => Some (VNull, r)
      | x02 :: x00 :: r => Some (VBool false, r)
      | x02 :: x01 :: r => Some (VBool true, r)
      | x03 :: r => map_reader VNumber parse_Z r
      | x04 :: r => map_reader VBigInt parse_Z r
      | x05 :: r => map_reader VString parse_string r
      | x06 :: r => map_reader VBytes parse_bytes r
      | x07 :: r => map_reader VArray (parse_seq (parse k) k) r
      | x08 :: r => map_reader VMap (parse_seq (pair_reader (parse k) (parse k)) k) r
      | x09 :: r => map_reader VObject (parse_seq (pair_reader parse_string (parse k)) k) r
      | _ => None
      end
  end.

(** The data of a document: every field as its own encoded bytes. *)
Definition rawData (v : value) : value :=
  match v with
  | VObject props => VObject (map (fun e => (fst e, VBytes (ser (snd e)))) props)
  | _ => v
  end.

Definition documentEncode (v : value) (schema : Schema) : result Document :=
  Ok {| getData := rawData v; bytes := ser v |}.

Definition depolorize (wire : list byte) (schema : Schema) : result value :=
  match parse (List.length wire) wire with
  | Some (v, []) => Ok v
  | _ => Throw (PlainError "insufficient data in wire for decode")
  end.

(** A resolver for four scalar type descriptors. *)
Definition parseDataType (descriptor : string) : result Schema :=
  if String.eqb descriptor "string" then Ok (Node KString None)
  else if String.eqb descriptor "bytes" then Ok (Node KBytes None)
  else if String.eqb descriptor "u64" then Ok (Node KInteger None)
  else if String.eqb descriptor "bool" then Ok (Node KBoolean None)
  else Throw (CustomError "Unsupported data type!" UNSUPPORTED_OPERATION None).

Definition getRoutineElement (name : string) : result Routine :=
  Throw (CustomError "routine not found" INVALID_ARGUMENT None).

Definition getEventElement (name : string) : option EventData :=
  if String.eqb name "Transfer"
  then Some {| event_name := "Transfer";
               event_fields := [ {| label := "to"; type := "string"; slot := 0 |} ] |}
  else None.

Definition builtInLogEventSchema : Schema :=
  Node KStruct (Some [("value", Node KString None)]).

End RefCodec.

(* ================================================================== *)
(** * Notions the statements are about *)

(** The writer and the reader undo each other: a document written under a
    schema reads back, under that schema, as the value written. *)
Definition lawful
    (documentEncode : value -> Schema -> result Document)
    (depolorize : list byte -> Schema -> result value) : Prop :=
  forall v s d, documentEncode v s = Ok d -> depolorize (bytes d) s = Ok v.

(** [stable s updateType]: no node at or below [s] is a struct that
    [parseCalldata] would reach with [updateType] true.  A struct node met
    with the flag set is rewritten; the fields of a struct are met with the
    flag cleared; the element schemas of an array or map are met with the
    flag set at the last element. *)
Fixpoint stable (s : Schema) (updateType : bool) : bool :=
  match s with
  | Node KStruct fs =>
      negb updateType &&
      match fs with
      | Some l => forallb (fun e => stable (snd e) false) l
      | None => true
      end
  | Node KArray fs | Node KMap fs =>
      match fs with
      | Some l => forallb (fun e => stable (snd e) true) l
      | None => true
      end
  | Node _ _ => true
  end.



(** Frame: under a stable node, processing [v] returns the node as it
    was. *)
Definition framed (documentEncode : value -> Schema -> result Document) (v : value) : Prop :=
  forall s u v' s',
    stable s u = true ->
    parseCalldata documentEncode s v u = Ok (v', s') ->
    s' = s.


(** The [reduce] of [encodeArguments], field by field: [ns] are the values
    the callback computes for [fields], one after the other, each under the
    field's schema node as the earlier fields left it, and [schema'] is the
    schema when the last one is done. *)
Fixpoint normalisedFrom (documentEncode : value -> Schema -> result Document)
    (args : list value) (schema : Schema) (fields : list Field) (ns : list value)
    (schema' : Schema) : Prop :=
  match fields, ns with
  | [], [] => schema' = schema
  | f :: fields', n :: ns' =>
      exists c c',
        fieldSchema schema (label f) = Ok c /\
        parseCalldata documentEncode c (argOf args f) true = Ok (n, c') /\
        normalisedFrom documentEncode args (withField schema (label f) c') fields' ns' schema'
  | _, _ => False
  end.

(** The calldata object after the values [vs] have been stored under the
    labels of [fields], in order. *)
Fixpoint storeAll (fields : list Field) (vs : list value) (acc : list (string * value))
  : list (string * value) :=
  match fields, vs with
  | f :: fields', v :: vs' => storeAll fields' vs' (JsMap.set (label f) v acc)
  | _, _ => acc
  end.

(** The participant map starts with the entry [(k0, v0)]. *)
Definition headed (k0 : string) (v0 : ProcessedIxParticipant)
    (ps : JsMap.t ProcessedIxParticipant) : Prop :=
  exists rest, ps = (k0, v0) :: rest.

(** Examples the closed statements run on. *)
Module Examples.

Definition mkIx (s : string) (p : option string) (fs : option (list AssetFund))
    (ps : option (list IxParticipant)) (txs : list IxTransaction) : InteractionObject :=
  {| sender := s; payer := p; nonce := Num 0; fuel_price := Num 1; fuel_limit := Num 100;
     funds := fs; participants := ps; transactions := txs |}.

Definition transfer (beneficiary asset : string) (n : numeric) : IxTransaction :=
  {| tx_type := ASSET_TRANSFER; tx_payload := Some (AssetActionPayload beneficiary asset n) |}.

Definition exampleFundsIx : InteractionObject :=
  mkIx "0xaa" None
    (Some [ {| fund_asset_id := "0xa1"; fund_amount := Num 3 |};
            {| fund_asset_id := "0xb2"; fund_amount := Num 7 |} ])
    None
    [ transfer "0xbb" "0xa1" (Num 5) ].

Definition exampleSenderIx : InteractionObject :=
  mkIx "0xaa" (Some "aa")
    None
    (Some [ {| participant_address := "0xaa"; participant_lock_type := READ_LOCK |};
            {| participant_address := "0xdd"; participant_lock_type := NO_LOCK |} ])
    [ transfer "aa" "0x00000000aa" (Num 5);
      {| tx_type := ASSET_BURN; tx_payload := Some (AssetSupplyPayload "0x00000000aa" (Num 1)) |} ].


Definition seedFields : list Field :=
  [ {| label := "name"; type := "string"; slot := 0 |};
    {| label := "data"; type := "bytes"; slot := 1 |} ].

Definition seedRoutine : Routine :=
  {| routine_name := "Seed"; accepts := Some seedFields; returns := None |}.



Definition absentRoutine : Routine :=
  {| routine_name := "Ping"; accepts := None; returns := None |}.

Definition emptyRoutine : Routine :=
  {| routine_name := "Ping"; accepts := Some []; returns := None |}.

(** struct Person { name: string, tags: array of struct { n: integer } } *)
Definition personSchema : Schema :=
  Node KStruct
    (Some [ ("name", Node KString None);
            ("tags", Node KArray
                       (Some [("values", Node KStruct (Some [("n", Node KInteger None)]))])) ]).

Definition personArg : value :=
  VObject [ ("name", VString "0xff");
            ("tags", VArray [ VObject [("n", VNumber 1)]; VObject [("n", VNumber 2)] ]) ].




End Examples.

(* ================================================================== *)
(** * More of the manifest coder: decodeException, encodeManifest *)

Section ExceptionDecoder.
(** js-polo's reader and [Schema.PISA_EXCEPTION_SCHEMA]. *)
Variable depolorize : list byte -> Schema -> result value.
Variable PISA_EXCEPTION_SCHEMA : Schema.

(** [ManifestCoder.decodeException(error)] *)
Definition decodeException (error : string) : result value :=
  if nonEmptyData error then
    decodedError <- hexToBytes error ;;
    depolorize decodedError PISA_EXCEPTION_SCHEMA
  else Ok VNull.
End ExceptionDecoder.

Record Element := {
  el_ptr : numeric;
  el_deps : value;
  el_kind : string;
  el_data : value
}.

Record Manifest := {
  m_syntax : numeric;
  m_engine : value;
  m_elements : option (list Element)
}.

(** The element kinds [encodeManifest] has a case for. *)
Definition supportedKinds : list string :=
  ["constant"; "typedef"; "class"; "method"; "routine"; "event"; "state"].

Definition isSupportedKind (kind : string) : bool :=
  existsb (String.eqb kind) supportedKinds.

Section ManifestEncoder.
(** The [Polorizer] of js-polo: a writer object, [new Polorizer()] and the
    five methods [encodeManifest] calls.  A method returns the writer as
    the call leaves it, or raises. *)
Variable Polorizer : Type.
Variable newPolorizer : Polorizer.
Variable polorizeInteger : numeric -> Polorizer -> result Polorizer.
Variable polorizeString : string -> Polorizer -> result Polorizer.
Variable polorize : value -> Schema -> Polorizer -> result Polorizer.
Variable polorizePacked : Polorizer -> Polorizer -> result Polorizer.
Variable polorizerBytes : Polorizer -> list byte.
(** The fixed schemas of the Schema Resolver. *)
Variable PISA_ENGINE_SCHEMA : Schema.
Variable PISA_DEPS_SCHEMA : Schema.
Variable PISA_CONSTANT_SCHEMA : Schema.
Variable PISA_TYPEDEF_SCHEMA : Schema.
Variable PISA_CLASS_SCHEMA : Schema.
Variable PISA_METHOD_SCHEMA : Schema.
Variable PISA_ROUTINE_SCHEMA : Schema.
Variable PISA_EVENT_SCHEMA : Schema.
Variable PISA_STATE_SCHEMA : Schema.

(** The [switch (value.kind)]: the schema of the element's data, or the
    error of the default case. *)
Definition elementSchema (kind : string) : result Schema :=
  if String.eqb kind "constant" then Ok PISA_CONSTANT_SCHEMA
  else if String.eqb kind "typedef" then Ok PISA_TYPEDEF_SCHEMA
  else if String.eqb kind "class" then Ok PISA_CLASS_SCHEMA
  else if String.eqb kind "method" then Ok PISA_METHOD_SCHEMA
  else if String.eqb kind "routine" then Ok PISA_ROUTINE_SCHEMA
  else if String.eqb kind "event" then Ok PISA_EVENT_SCHEMA
  else if String.eqb kind "state" then Ok PISA_STATE_SCHEMA
  else Throw (CustomError ("Unsupported kind: " ++ kind)%string UNSUPPORTED_OPERATION None).

(** The callback of [manifest.elements.forEach]: the writer [elements]
    after the element has been packed into it. *)
Definition encodeElement (elements : Polorizer) (value : Element) : result Polorizer :=
  element <- polorizeInteger (el_ptr value) newPolorizer ;;
  element <- polorize (el_deps value) PISA_DEPS_SCHEMA element ;;
  element <- polorizeString (el_kind value) element ;;
  schema <- elementSchema (el_kind value) ;;
  element <- polorize (el_data value) schema element ;;
  polorizePacked element elements.

(** [ManifestCoder.encodeManifest(manifest)] *)
Definition encodeManifest (manifest : Manifest) : result string :=
  polorizer <- polorizeInteger (m_syntax manifest) newPolorizer ;;
  polorizer <- polorize (m_engine manifest) PISA_ENGINE_SCHEMA polorizer ;;
  polorizer <- match m_elements manifest with
               | Some els =>
                   elements <- forEach encodeElement els newPolorizer ;;
                   polorizePacked elements polorizer
               | None => Ok polorizer
               end ;;
  Ok ("0x" ++ bytesToHex (polorizerBytes polorizer))%string.
End ManifestEncoder.

(* ================================================================== *)
(** * The signer *)

Section Signer.
(** The vault, the signature backends and the table of signature types
    live in other modules of the package. *)
Variable Vault : Type.
Variable curve : Vault -> string.
Variable publicKey : Vault -> list byte.
Variable SigAlgo : Type.
Variable Signature : Type.
(** [Utils.getSigTypeAttributes(sigAlgo)]: the pair [[name, curve]]. *)
Variable getSigTypeAttributes : SigAlgo -> result (string * string).
(** [Types.SCHNORR], [Types.ECDSA] *)
Variable SCHNORR : string.
Variable ECDSA : string.
Variable sr25519_Sign : list byte -> Vault -> result Signature.
Variable ecdsa_Sign : list byte -> Vault -> result Signature.
Variable sr25519_Verify : list byte -> Signature -> list byte -> result bool.
Variable ecdsa_Verify : list byte -> Signature -> list byte -> result bool.

Record Signer := {
  signingVault : Vault;
  sigAlgorithm : string
}.

(** [new Signer(vault, sigAlgo)] *)
Definition newSigner (vault : Vault) (sigAlgo : SigAlgo) : result Signer :=
  sigTypeAtts <- getSigTypeAttributes sigAlgo ;;
  if negb (String.eqb (snd sigTypeAtts) (curve vault))
  then Throw (PlainError "given signature algorithm does not support for this curve")
  else Ok {| signingVault := vault; sigAlgorithm := fst sigTypeAtts |}.

Definition Sign (this : Signer) (message : list byte) : result Signature :=
  if String.eqb (sigAlgorithm this) SCHNORR then sr25519_Sign message (signingVault this)
  else if String.eqb (sigAlgorithm this) ECDSA then ecdsa_Sign message (signingVault this)
  else Throw (PlainError "unsupported signature algorithm").

Definition Verify (this : Signer) (message : list byte) (signature : Signature) : result bool :=
  if String.eqb (sigAlgorithm this) SCHNORR
  then sr25519_Verify message signature (publicKey (signingVault this))
  else if String.eqb (sigAlgorithm this) ECDSA
  then ecdsa_Verify message signature (publicKey (signingVault this))
  else Throw (PlainError "unsupported signature algorithm").
End Signer.

(* ================================================================== *)
(** * Further notions the statements are about *)

(** The transactions [processFunds] reads. *)
Definition isFundTx (tx : IxTransaction) : bool :=
  match tx_type tx with
  | ASSET_TRANSFER | ASSET_BURN => true
  | _ => false
  end.

(** The amount a fund transaction moves of asset [a], when it names [a]. *)
Definition fundAmountOf (a : string) (tx : IxTransaction) : option numeric :=
  if isFundTx tx then
    match tx_payload tx with
    | Some p =>
        match payload_asset_id p, payload_amount p with
        | Some id, Some n => if String.eqb id a then Some n else None
        | _, _ => None
        end
    | None => None
    end
  else None.

(** The amounts moved of asset [a], in transaction order. *)
Fixpoint fundAmounts (a : string) (txs : list IxTransaction) : list numeric :=
  match txs with
  | [] => []
  | tx :: rest =>
      match fundAmountOf a tx with
      | Some n => n :: fundAmounts a rest
      | None => fundAmounts a rest
      end
  end.

Definition total (amounts : list numeric) : Z :=
  fold_right (fun n acc => toZ n + acc)%Z 0%Z amounts.

(** The sum of some amounts: a [bigint] as soon as one of them is. *)
Definition sumOf (amounts : list numeric) : numeric :=
  if existsb isBigint amounts then Big (total amounts) else Num (total amounts).

(** One accumulation of [processFunds]: the amount [n] added to what the
    accumulator holds, or to 0. *)
Definition addAmount (cur : option numeric) (n : numeric) : option numeric :=
  let amount := match cur with Some a => a | None => Num 0 end in
  Some (if isBigint n || isBigint amount
        then Big (toZ n + toZ amount)
        else Num (toZ n + toZ amount)).

(** [Number.isSafeInteger]: an integer of magnitude at most 2^53 - 1. *)
Definition safeInteger (z : Z) : Prop := (Z.abs z <= 2 ^ 53 - 1)%Z.

(** The amounts stay where the addition of JS numbers is exact: every
    [number] among them is a safe integer, and so is every running total
    that is still a [number], no [bigint] having been met yet. *)
Definition safeAmounts (amounts : list numeric) : Prop :=
  (forall n, In (Num n) amounts -> safeInteger n) /\
  (forall k, existsb isBigint (firstn k amounts) = false ->
             safeInteger (total (firstn k amounts))).

(** Every fund transaction names its asset without the "0x" marker. *)
Definition plainAssetIds (txs : list IxTransaction) : Prop :=
  forall tx p id,
    In tx txs -> isFundTx tx = true ->
    tx_payload tx = Some p -> payload_asset_id p = Some id ->
    trimHexPrefix id = id.

Definition withTransactions (ix : InteractionObject) (txs : list IxTransaction)
  : InteractionObject :=
  {| sender := sender ix; payer := payer ix; nonce := nonce ix;
     fuel_price := fuel_price ix; fuel_limit := fuel_limit ix;
     funds := funds ix; participants := participants ix; transactions := txs |}.

(** The interaction cut after the transactions [pre], without supplied
    participants. *)
Definition upTo (ix : InteractionObject) (pre : list IxTransaction) : InteractionObject :=
  {| sender := sender ix; payer := payer ix; nonce := nonce ix;
     fuel_price := fuel_price ix; fuel_limit := fuel_limit ix;
     funds := funds ix; participants := None; transactions := pre |}.

(** Every entry of the participant map holds the bytes of its key. *)
Definition keyedByAddress (ps : JsMap.t ProcessedIxParticipant) : Prop :=
  forall k p, JsMap.get k ps = Some p -> hexToBytes k = Ok (p_address p).

(** The address a transaction implies as a participant, as the string that
    [processParticipants] converts and keys it by. *)
Definition impliedAddress (tx : IxTransaction) : option string :=
  match tx_type tx, tx_payload tx with
  | (ASSET_MINT | ASSET_BURN), Some p =>
      option_map (fun id => slice 8 (trimHexPrefix id)) (payload_asset_id p)
  | ASSET_TRANSFER, Some p => payload_beneficiary p
  | (LOGIC_ENLIST | LOGIC_INVOKE), Some p =>
      option_map (fun id => slice 6 (trimHexPrefix id)) (payload_logic_id p)
  | _, _ => None
  end.

Definition isUnsupportedTx (tx : IxTransaction) : bool :=
  match tx_type tx with
  | TX_OTHER _ => true
  | _ => false
  end.

(** A writer that appends to a byte buffer, on which the closed examples of
    [encodeManifest] run. *)
Module RefWriter.

Definition Polorizer := list byte.
Definition newPolorizer : Polorizer := [].

Definition polorizeInteger (n : numeric) (p : Polorizer) : result Polorizer :=
  Ok (p ++ RefCodec.ser (match n with Num z => VNumber z | Big z => VBigInt z end)).

Definition polorizeString (s : string) (p : Polorizer) : result Polorizer :=
  Ok (p ++ RefCodec.ser (VString s)).

Definition polorize (v : value) (schema : Schema) (p : Polorizer) : result Polorizer :=
  Ok (p ++ RefCodec.ser v).

Definition polorizePacked (child p : Polorizer) : result Polorizer :=
  Ok (p ++ RefCodec.ser (VBytes child)).

Definition polorizerBytes (p : Polorizer) : list byte := p.

Definition anySchema : Schema := Node KDocument None.

Definition encode : Manifest -> result string :=
  encodeManifest newPolorizer polorizeInteger polorizeString polorize polorizePacked
    polorizerBytes anySchema anySchema anySchema anySchema anySchema anySchema
    anySchema anySchema anySchema.

End RefWriter.

(** A signer setting with two algorithms whose backends sign by tagging the
    message, on which the closed examples of the signer run. *)
Module RefSigner.

Definition curve (vault : string) : string := vault.
Definition publicKey (vault : string) : list byte := list_byte_of_string vault.

Definition getSigTypeAttributes (sigAlgo : nat) : result (string * string) :=
  match sigAlgo with
  | 0 => Ok ("sr25519", "ed25519")
  | 1 => Ok ("ecdsa", "secp256k1")
  | 2 => Ok ("bls", "bls12381")
  | _ => Throw (PlainError "Invalid signature type")
  end.

Definition signWith (tag : byte) (message : list byte) (vault : string)
  : result (list byte) :=
  Ok (tag :: list_byte_of_string vault ++ message).

Definition verifyWith (tag : byte) (message signature publicKey : list byte)
  : result bool :=
  Ok (if list_eq_dec Byte.byte_eq_dec signature (tag :: publicKey ++ message)
      then true else false).

Definition create : string -> nat -> result (Signer string) :=
  newSigner curve getSigTypeAttributes.

Definition sign : Signer string -> list byte -> result (list byte) :=
  Sign "sr25519" "ecdsa" (signWith x01) (signWith x02).

Definition verify : Signer string -> list byte -> list byte -> result bool :=
  Verify publicKey "sr25519" "ecdsa" (verifyWith x01) (verifyWith x02).

End RefSigner.

Module MoreExamples.
Import Examples.

Definition burn (asset : string) (n : numeric) : IxTransaction :=
  {| tx_type := ASSET_BURN; tx_payload := Some (AssetSupplyPayload asset n) |}.

Definition mint (asset : string) (n : numeric) : IxTransaction :=
  {| tx_type := ASSET_MINT; tx_payload := Some (AssetSupplyPayload asset n) |}.

Definition invoke (logic : string) : IxTransaction :=
  {| tx_type := LOGIC_INVOKE;
     tx_payload := Some (LogicPayload (Some logic) "Seed" "0x") |}.

(** Two transfers and a burn of asset "a1", one of them a [bigint], a
    transfer of "b2" and a mint in between. *)
Definition mixedFundsIx : InteractionObject :=
  mkIx "0xaa" (Some "0xbb")
    (Some [ {| fund_asset_id := "0xa1"; fund_amount := Num 9 |};
            {| fund_asset_id := "0xc3"; fund_amount := Num 4 |} ])
    (Some [ {| participant_address := "0xdd"; participant_lock_type := READ_LOCK |};
            {| participant_address := "0xaa"; participant_lock_type := NO_LOCK |} ])
    [ transfer "0x0c" "a1" (Num 5);
      mint "0x00000000ee" (Num 1);
      transfer "0x0c" "b2" (Num 2);
      burn "a1" (Big 3);
      invoke "0x000000ff";
      transfer "0x0d" "a1" (Num 1) ].

Definition unsupportedIx : InteractionObject :=
  mkIx "0xaa" None None None
    [ transfer "0x0c" "a1" (Num 5);
      {| tx_type := TX_OTHER 4; tx_payload := Some (AssetCreatePayload "MOI" (Num 1)) |} ].

Definition missingPayloadIx : InteractionObject :=
  mkIx "0xaa" None None None
    [ mint "0x00000000ee" (Num 1);
      {| tx_type := LOGIC_INVOKE; tx_payload := None |};
      transfer "0x0c" "a1" (Num 5) ].

Definition bytesArraySchema : Schema :=
  Node KArray (Some [("values", Node KBytes None)]).

Definition bytesArrayArg : value :=
  VArray [VString "0x01"; VBytes [x02]; VString "0a0b"].

Definition pingRoutine : Routine :=
  {| routine_name := "Ping";
     accepts := Some [];
     returns := Some [ {| label := "ok"; type := "bool"; slot := 0 |} ] |}.

Definition lookup (name : string) : result Routine :=
  if String.eqb name "Seed" then Ok seedRoutine
  else Throw (CustomError "routine not found" INVALID_ARGUMENT None).

Definition goodManifest : Manifest :=
  {| m_syntax := Num 1;
     m_engine := VObject [("kind", VString "PISA")];
     m_elements := Some [ {| el_ptr := Num 0; el_deps := VArray []; el_kind := "state";
                             el_data := VObject [] |};
                          {| el_ptr := Num 1; el_deps := VArray [VNumber 0];
                             el_kind := "routine"; el_data := VObject [] |} ] |}.

Definition badManifest : Manifest :=
  {| m_syntax := Num 1;
     m_engine := VObject [("kind", VString "PISA")];
     m_elements := Some [ {| el_ptr := Num 0; el_deps := VArray []; el_kind := "state";
                             el_data := VObject [] |};
                          {| el_ptr := Num 1; el_deps := VArray [];
                             el_kind := "asset"; el_data := VObject [] |};
                          {| el_ptr := Num 2; el_deps := VArray [];
                             el_kind := "gizmo"; el_data := VObject [] |} ] |}.

End MoreExamples.

(* ================================================================== *)
(** * Facts about the helpers *)

Lemma bind_Ok {A B} (m : result A) (k : A -> result B) (b : B) :
  bind m k = Ok b -> exists a, m = Ok a /\ k a = Ok b.
Proof.
  destruct m as [a|e]; simpl; intros H.
  - exists a. split; [reflexivity | exact H].
  - discriminate H.
Qed.

Lemma Ok_inj {A} (a b : A) : Ok a = Ok b -> a = b.
Proof. congruence. Qed.

Lemma try_wrap_Ok {A} message code (body : result A) (a : A) :
  try_wrap message code body = Ok a -> body = Ok a.
Proof. destruct body; simpl; congruence. Qed.

(** Peels the successful prefix of a monadic computation in hypothesis [H]. *)
Ltac bind_inv H :=
  repeat match type of H with
         | try_wrap _ _ _ = Ok _ => apply try_wrap_Ok in H
         | bind _ _ = Ok _ =>
             let a := fresh "x" in
             let E := fresh "E" in
             apply bind_Ok in H; destruct H as [a [E H]]
         end.

Module HexFacts.

(** A string that parses as hexadecimal carries no "0x" marker. *)
Lemma parseHex_trim (s : string) (bs : list byte) :
  parseHex s = Some bs -> trimHexPrefix s = s.
Proof.
  destruct s as [|a [|b rest]]; try reflexivity.
  intros H. unfold trimHexPrefix.
  destruct (Ascii.eqb b "x") eqn:Eb.
  - apply Ascii.eqb_eq in Eb. subst b. simpl in H.
    destruct (hexDigit a); discriminate H.
  - rewrite andb_false_r. reflexivity.
Qed.

(** Converting a string that converts, after stripping its marker, gives the
    same bytes. *)
Lemma hexToBytes_trim (s : string) (bs : list byte) :
  hexToBytes s = Ok bs -> hexToBytes (trimHexPrefix s) = Ok bs.
Proof.
  unfold hexToBytes. destruct (parseHex (trimHexPrefix s)) as [bs'|] eqn:E;
    [|discriminate].
  intros H. rewrite (parseHex_trim _ E), E. exact H.
Qed.

Lemma hexToBytes_same_key (s s' : string) :
  trimHexPrefix s = trimHexPrefix s' -> hexToBytes s = hexToBytes s'.
Proof. unfold hexToBytes. intros ->. reflexivity. Qed.

Lemma byte_digits (b : byte) :
  let n := Byte.to_N b in
  hexDigit (nibbleChar (n / 16)) = Some (n / 16)%N /\
  hexDigit (nibbleChar (n mod 16)) = Some (n mod 16)%N /\
  byteOfN (16 * (n / 16) + n mod 16) = b.
Proof. destruct b; vm_compute; repeat split. Qed.

Lemma parseHex_bytesToHex (bs : list byte) : parseHex (bytesToHex bs) = Some bs.
Proof.
  induction bs as [|b rest IH]; [reflexivity|].
  destruct (byte_digits b) as [Hh [Hl Hb]].
  cbn [bytesToHex parseHex]. rewrite Hh, Hl, IH, Hb. reflexivity.
Qed.

(** Hex text printed from bytes, marked or not, converts back to those bytes. *)
Lemma hexToBytes_bytesToHex (bs : list byte) :
  hexToBytes ("0x" ++ bytesToHex bs) = Ok bs.
Proof.
  unfold hexToBytes. simpl. rewrite parseHex_bytesToHex. reflexivity.
Qed.

End HexFacts.

Module JsMapFacts.
Section JsMapFacts.
Variable V : Type.
Implicit Types (m : JsMap.t V) (k : string) (v : V).

Lemma get_set m k k' v :
  JsMap.get k (JsMap.set k' v m) = if String.eqb k k' then Some v else JsMap.get k m.
Proof.
  induction m as [|[k0 v0] rest IH]; simpl.
  - destruct (String.eqb k k'); reflexivity.
  - destruct (String.eqb k' k0) eqn:E0; simpl.
    + apply String.eqb_eq in E0. subst k0.
      destruct (String.eqb k k'); reflexivity.
    + destruct (String.eqb k k0) eqn:E1.
      * apply String.eqb_eq in E1. subst k0.
        rewrite String.eqb_sym, E0. reflexivity.
      * exact IH.
Qed.

(** [set] on a key that is absent appends the entry. *)
Lemma set_absent m k v :
  JsMap.has k m = false -> JsMap.set k v m = m ++ [(k, v)].
Proof.
  unfold JsMap.has. induction m as [|[k0 v0] rest IH]; simpl; [reflexivity|].
  destruct (String.eqb k k0); [discriminate|].
  intros H. rewrite (IH H). reflexivity.
Qed.

(** [set] never moves the first entry; it replaces its value when the key
    is the first key. *)
Lemma set_head m k0 v0 k v :
  JsMap.set k v ((k0, v0) :: m) =
    if String.eqb k k0 then (k0, v) :: m else (k0, v0) :: JsMap.set k v m.
Proof.
  simpl. destruct (String.eqb k k0) eqn:E; [|reflexivity].
  apply String.eqb_eq in E. subst. reflexivity.
Qed.
End JsMapFacts.
End JsMapFacts.

(* ================================================================== *)
(** * The interaction serializer *)

Module SerializerFacts.
Import Examples.

(** ** Funds *)

(** The value the merged funds hold under a key: the transaction-implied
    amount when there is one, otherwise the amount of the first supplied
    fund whose normalised asset id is the key. *)
Lemma mergeSupplied_get (fs : list AssetFund) (acc : JsMap.t numeric) (k : string) :
  JsMap.get k (fold_left suppliedFundStep fs acc) =
    match JsMap.get k acc with
    | Some a => Some a
    | None =>
        option_map fund_amount
          (find (fun f => String.eqb (trimHexPrefix (fund_asset_id f)) k) fs)
    end.
Proof.
  revert acc. induction fs as [|f rest IH]; intros acc; simpl.
  - destruct (JsMap.get k acc); reflexivity.
  - rewrite IH. unfold suppliedFundStep, JsMap.has.
    destruct (JsMap.get (trimHexPrefix (fund_asset_id f)) acc) as [a0|] eqn:E0; simpl.
    + destruct (JsMap.get k acc) eqn:E1; [reflexivity|].
      destruct (String.eqb (trimHexPrefix (fund_asset_id f)) k) eqn:E2; [|reflexivity].
      apply String.eqb_eq in E2. rewrite E2 in E0. congruence.
    + rewrite JsMapFacts.get_set. rewrite (String.eqb_sym k).
      destruct (String.eqb (trimHexPrefix (fund_asset_id f)) k) eqn:E2.
      * apply String.eqb_eq in E2. rewrite <- E2, E0. reflexivity.
      * reflexivity.
Qed.

(** Supplied funds only ever extend the accumulator at its end. *)
Lemma mergeSupplied_app (fs : list AssetFund) (acc : JsMap.t numeric) :
  exists extras,
    fold_left suppliedFundStep fs acc = acc ++ extras /\
    forall k, In k (JsMap.keys extras) ->
      JsMap.has k acc = false /\
      exists f, In f fs /\ trimHexPrefix (fund_asset_id f) = k.
Proof.
  revert acc. induction fs as [|f rest IH]; intros acc; simpl.
  - exists []. split; [symmetry; apply app_nil_r | intros k []].
  - unfold suppliedFundStep at 2.
    destruct (JsMap.has (trimHexPrefix (fund_asset_id f)) acc) eqn:E; simpl.
    + destruct (IH acc) as [extras [H1 H2]]. exists extras. split; [exact H1|].
      intros k Hk. destruct (H2 k Hk) as [Ha [f' [Hf' Hk']]].
      split; [exact Ha|]. exists f'. auto.
    + rewrite JsMapFacts.set_absent by exact E.
      destruct (IH (acc ++ [(trimHexPrefix (fund_asset_id f), fund_amount f)]))
        as [extras [H1 H2]].
      exists ((trimHexPrefix (fund_asset_id f), fund_amount f) :: extras).
      split; [rewrite H1, <- app_assoc; reflexivity|].
      intros k [Hk|Hk].
      * simpl in Hk. subst k. split; [exact E|]. exists f. auto.
      * destruct (H2 k Hk) as [Ha [f' [Hf' Hk']]]. split.
        -- unfold JsMap.has in *.
           destruct (JsMap.get k acc) eqn:Eg; [|reflexivity].
           assert (Hg : JsMap.get k (acc ++ [(trimHexPrefix (fund_asset_id f), fund_amount f)])
                        = Some n).
           { clear -Eg. induction acc as [|[k0 v0] acc IHa]; simpl in *; [discriminate|].
             destruct (String.eqb k k0); [exact Eg | auto]. }
           rewrite Hg in Ha. discriminate Ha.
        -- exists f'. auto.
Qed.

(** C5. Fund merge precedence: once the transactions have been scanned into
    the accumulator [acc], the canonical funds are [acc] followed by appended
    entries; under every asset id the canonical funds hold the
    transaction-implied amount when the transactions imply one, and
    otherwise the supplied amount (of the first supplied fund naming the
    asset); every appended entry is a supplied asset that no transaction
    implies.  Transactions implying a1: 5 with supplied funds a1: 3, b2: 7
    give a1: 5, b2: 7. *)
Theorem processFunds_merge_precedence (ix : InteractionObject) (acc : JsMap.t numeric) :
  impliedFunds ix = Ok acc ->
  (exists extras,
     processFunds ix = Ok (map fundEntry (acc ++ extras)) /\
     (forall k a, JsMap.get k acc = Some a -> JsMap.get k (acc ++ extras) = Some a) /\
     (forall supplied f,
        funds ix = Some supplied -> In f supplied ->
        JsMap.has (trimHexPrefix (fund_asset_id f)) acc = false ->
        JsMap.get (trimHexPrefix (fund_asset_id f)) (acc ++ extras) =
          option_map fund_amount
            (find (fun f' => String.eqb (trimHexPrefix (fund_asset_id f'))
                               (trimHexPrefix (fund_asset_id f))) supplied)) /\
     (forall k, In k (JsMap.keys extras) ->
        JsMap.has k acc = false /\
        exists supplied f, funds ix = Some supplied /\ In f supplied /\
                           trimHexPrefix (fund_asset_id f) = k)) /\
  processFunds exampleFundsIx =
    Ok [ {| p_asset_id := "a1"; p_amount := Num 5 |};
         {| p_asset_id := "b2"; p_amount := Num 7 |} ].
Proof.
  intros Hacc. split; [|reflexivity].
  unfold processFunds. rewrite Hacc. simpl.
  unfold mergeSuppliedFunds. destruct (funds ix) as [supplied|] eqn:Ef.
  - destruct (mergeSupplied_app supplied acc) as [extras [Happ Hextra]].
    exists extras. rewrite Happ. split; [reflexivity|]. split; [|split].
    + intros k a Hk. rewrite <- Happ, mergeSupplied_get, Hk. reflexivity.
    + intros supplied' f Hs Hin Habs. injection Hs as <-.
      rewrite <- Happ, mergeSupplied_get.
      unfold JsMap.has in Habs.
      destruct (JsMap.get (trimHexPrefix (fund_asset_id f)) acc); [discriminate|].
      reflexivity.
    + intros k Hk. destruct (Hextra k Hk) as [Ha [f [Hf Hk']]].
      split; [exact Ha|]. exists supplied, f. auto.
  - exists []. rewrite app_nil_r. split; [reflexivity|]. split; [|split].
    + auto.
    + intros supplied f Hs. discriminate Hs.
    + intros k [].
Qed.

Lemma processFunds_merge_precedence_witness :
  exists extras,
    processFunds exampleFundsIx = Ok (map fundEntry ([("a1", Num 5)] ++ extras)).
Proof.
  destruct (@processFunds_merge_precedence exampleFundsIx [("a1", Num 5)] eq_refl)
    as [[extras [H _]] _].
  exists extras. exact H.
Defined.

(** C2 (defect). The accumulator is read under the asset id as written and
    stored under the asset id without its "0x" marker: two transfers of 5
    and 3 naming asset "0xaa" leave one entry for "aa" holding 3, the last
    amount, not their sum 8.  The same transfers naming "aa" sum to 8. *)
Theorem processFunds_prefixed_asset_not_summed :
  processFunds (mkIx "0x01" None None None
                  [ transfer "0x02" "0xaa" (Num 5); transfer "0x02" "0xaa" (Num 3) ])
    = Ok [ {| p_asset_id := "aa"; p_amount := Num 3 |} ] /\
  processFunds (mkIx "0x01" None None None
                  [ transfer "0x02" "aa" (Num 5); transfer "0x02" "aa" (Num 3) ])
    = Ok [ {| p_asset_id := "aa"; p_amount := Num 8 |} ].
Proof. split; reflexivity. Qed.


(** ** Participants *)

Lemma forEach_invariant {S X} (f : S -> X -> result S) (P : S -> Prop) :
  (forall s x s', P s -> f s x = Ok s' -> P s') ->
  forall xs s s', P s -> forEach f xs s = Ok s' -> P s'.
Proof.
  intros Hstep xs. induction xs as [|x rest IH]; simpl; intros s s' Hs H.
  - injection H as <-. exact Hs.
  - bind_inv H. eauto.
Qed.

Lemma set_keeps_head k0 v0 ps k v :
  headed k0 v0 ps -> (k = k0 -> v = v0) -> headed k0 v0 (JsMap.set k v ps).
Proof.
  intros [rest ->] Hv. rewrite JsMapFacts.set_head.
  destruct (String.eqb k k0) eqn:E.
  - apply String.eqb_eq in E. rewrite (Hv E). exists rest. reflexivity.
  - eexists. reflexivity.
Qed.

(** A transaction-implied write under the first key stores the value that is
    already there: the bytes of the key and [MUTATE_LOCK]. *)
Lemma participantStep_keeps_head k0 b0 ps tx ps' :
  hexToBytes k0 = Ok b0 ->
  headed k0 (mutate b0) ps ->
  participantStep ps tx = Ok ps' ->
  headed k0 (mutate b0) ps'.
Proof.
  intros Hk0 Hhead H. unfold participantStep in H. cbv zeta in H.
  destruct (tx_type tx); bind_inv H; try (injection H as <-); try discriminate H;
    try exact Hhead;
    (apply set_keeps_head; [exact Hhead | intros Heq; subst k0]);
    match goal with
    | H1 : hexToBytes ?a = Ok ?x |- mutate ?x = _ =>
        f_equal; apply Ok_inj; rewrite <- H1, <- Hk0; reflexivity
    end.
Qed.

Lemma suppliedParticipantStep_keeps_head k0 v0 ps p ps' :
  headed k0 v0 ps ->
  suppliedParticipantStep ps p = Ok ps' ->
  headed k0 v0 ps'.
Proof.
  intros Hhead H. unfold suppliedParticipantStep in H.
  destruct (JsMap.has (trimHexPrefix (participant_address p)) ps) eqn:E; simpl in H.
  - injection H as <-. exact Hhead.
  - bind_inv H. injection H as <-.
    apply set_keeps_head; [exact Hhead|].
    intros Heq. destruct Hhead as [rest ->].
    unfold JsMap.has in E. simpl in E. rewrite Heq, String.eqb_refl in E.
    discriminate E.
Qed.

(** The sender's entry stays first in the participant map and keeps the
    sender's bytes and [MUTATE_LOCK]. *)
Lemma participantMap_sender_first (ix : InteractionObject) ps :
  participantMap ix = Ok ps ->
  exists b, hexToBytes (sender ix) = Ok b /\
            headed (trimHexPrefix (sender ix)) (mutate b) ps.
Proof.
  intros H. unfold participantMap in H. bind_inv H.
  rename x into b, x0 into ps1, x1 into ps2.
  exists b. split; [exact E|].
  assert (Hk0 : hexToBytes (trimHexPrefix (sender ix)) = Ok b)
    by (apply HexFacts.hexToBytes_trim; exact E).
  assert (H1 : headed (trimHexPrefix (sender ix)) (mutate b) ps1).
  { destruct (payer ix) as [p|].
    - bind_inv E0. apply Ok_inj in E0. subst ps1.
      apply set_keeps_head; [eexists; reflexivity|].
      intros Heq. rewrite (HexFacts.hexToBytes_same_key _ _ Heq) in E2. congruence.
    - apply Ok_inj in E0. subst ps1. eexists. reflexivity. }
  assert (H2 : headed (trimHexPrefix (sender ix)) (mutate b) ps2).
  { revert E1. apply forEach_invariant; [|exact H1].
    intros s x s'. apply participantStep_keeps_head. exact Hk0. }
  destruct (participants ix) as [supplied|].
  - revert H. apply forEach_invariant; [|exact H2].
    intros s x s'. apply suppliedParticipantStep_keeps_head.
  - injection H as <-. exact H2.
Qed.

(** C9. When an interaction canonicalizes, the first derived participant is
    the sender: its address is the sender's address bytes and its lock type
    is [MUTATE_LOCK], whatever transactions and supplied participants
    follow. *)
Theorem serializeIxObject_sender_first
    (serializePayload : TxType -> TxPayload -> result (list byte))
    (polorizeIxObject : ProcessedIxObject -> result (list byte))
    (ix : InteractionObject) (wire : list byte) :
  serializeIxObject serializePayload polorizeIxObject ix = Ok wire ->
  exists processed b rest,
    processIxObject serializePayload ix = Ok processed /\
    hexToBytes (sender ix) = Ok b /\
    p_sender processed = b /\
    p_participants processed =
      {| p_address := b; p_lock_type := MUTATE_LOCK |} :: rest.
Proof.
  intros H. unfold serializeIxObject in H. bind_inv H.
  rename x into processed. exists processed.
  pose proof E as Ep. unfold processIxObject in Ep. bind_inv Ep.
  injection Ep as <-. simpl.
  unfold processParticipants in E4. bind_inv E4. injection E4 as <-.
  destruct (participantMap_sender_first _ E5) as [b [Hb [rest ->]]].
  exists b, (JsMap.values rest). split; [exact E|]. split; [exact Hb|].
  split; [|reflexivity]. simpl. rewrite Hb in E0. apply Ok_inj in E0. auto.
Qed.

Lemma serializeIxObject_sender_first_witness :
  exists processed b rest,
    processIxObject (fun _ _ => Ok []) exampleSenderIx = Ok processed /\
    hexToBytes (sender exampleSenderIx) = Ok b /\
    p_sender processed = b /\
    p_participants processed =
      {| p_address := b; p_lock_type := MUTATE_LOCK |} :: rest.
Proof.
  apply (@serializeIxObject_sender_first
           (fun _ _ => Ok []) (fun _ => Ok []) exampleSenderIx []).
  reflexivity.
Defined.

(** C3 (defect). The beneficiary of an [ASSET_TRANSFER] is stored under its
    address as written, every other participant under the address without
    its "0x" marker: a transfer whose beneficiary "0xaa" is the sender "0xaa"
    leaves two participants with the same address bytes.  Written "aa", the
    same beneficiary adds no entry. *)
Theorem processParticipants_prefixed_beneficiary_duplicates :
  processParticipants (mkIx "0xaa" None None None [ transfer "0xaa" "0xcc" (Num 5) ])
    = Ok [ {| p_address := [xaa]; p_lock_type := MUTATE_LOCK |};
           {| p_address := [xaa]; p_lock_type := MUTATE_LOCK |} ] /\
  processParticipants (mkIx "0xaa" None None None [ transfer "aa" "0xcc" (Num 5) ])
    = Ok [ {| p_address := [xaa]; p_lock_type := MUTATE_LOCK |} ].
Proof. split; reflexivity. Qed.

(** ** The processed interaction *)

(** C4 (defect). The processed payer is the zero address whether or not the
    interaction names a payer: with payer "0xbb" the payer field is 32 zero
    bytes, while the participants do hold the payer's bytes. *)
Theorem processIxObject_ignores_supplied_payer
    (serializePayload : TxType -> TxPayload -> result (list byte)) :
  processIxObject serializePayload (mkIx "0xaa" (Some "0xbb") None None [])
    = Ok {| p_sender := [xaa];
            p_payer := repeat x00 32;
            p_nonce := Num 0;
            p_fuel_price := Num 1;
            p_fuel_limit := Num 100;
            p_funds := [];
            p_transactions := [];
            p_participants :=
              [ {| p_address := [xaa]; p_lock_type := MUTATE_LOCK |};
                {| p_address := [xbb]; p_lock_type := MUTATE_LOCK |} ] |}.
Proof. reflexivity. Qed.

(** C6 (defect). [processFunds] reads the payload of an [ASSET_TRANSFER] or
    [ASSET_BURN] before [processTransactions] checks that it is there: with
    such a transaction lacking its payload the wrapped cause is a
    [TypeError], not [MISSING_ARGUMENT]; for the other types, [ASSET_MINT]
    here, it is [MISSING_ARGUMENT]. *)
Theorem serializeIxObject_missing_transfer_payload
    (serializePayload : TxType -> TxPayload -> result (list byte))
    (polorizeIxObject : ProcessedIxObject -> result (list byte)) :
  serializeIxObject serializePayload polorizeIxObject
    (mkIx "0xaa" None None None [ {| tx_type := ASSET_TRANSFER; tx_payload := None |} ])
    = Throw (CustomError "Failed to serialize interaction object" UNKNOWN_ERROR
               (Some (CustomError "Failed to process interaction object" UNKNOWN_ERROR
                        (Some (TypeError "Cannot read properties of undefined"))))) /\
  serializeIxObject serializePayload polorizeIxObject
    (mkIx "0xaa" None None None [ {| tx_type := ASSET_MINT; tx_payload := None |} ])
    = Throw (CustomError "Failed to serialize interaction object" UNKNOWN_ERROR
               (Some (CustomError "Failed to process interaction object" UNKNOWN_ERROR
                        (Some (CustomError "Payload is missing!" MISSING_ARGUMENT None))))).
Proof. split; reflexivity. Qed.

End SerializerFacts.

(* ================================================================== *)
(** * The reference reader undoes the reference writer *)

Module RefCodecFacts.
Import RefCodec.

Lemma parse_pos_ser (p : positive) (rest : list byte) :
  parse_pos (ser_pos p ++ rest) = Some (p, rest).
Proof. induction p as [q IH|q IH|]; simpl; try rewrite IH; reflexivity. Qed.

Lemma parse_Z_ser (n : Z) (rest : list byte) :
  parse_Z (ser_Z n ++ rest) = Some (n, rest).
Proof. destruct n; simpl; try rewrite parse_pos_ser; reflexivity. Qed.

Lemma ser_seq_cons (c : list byte) (chunks : list (list byte)) (rest : list byte) :
  ser_seq (c :: chunks) ++ rest = x01 :: c ++ (ser_seq chunks ++ rest).
Proof.
  unfold ser_seq. simpl. rewrite <- !app_assoc. reflexivity.
Qed.

Lemma parse_bytes_ser (bs rest : list byte) :
  parse_bytes (ser_bytes bs ++ rest) = Some (bs, rest).
Proof.
  unfold ser_bytes. induction bs as [|b bs IH]; [reflexivity|].
  cbn [map]. rewrite ser_seq_cons. cbn [app parse_bytes]. rewrite IH. reflexivity.
Qed.

Lemma parse_string_ser (s : string) (rest : list byte) :
  parse_string (ser_string s ++ rest) = Some (s, rest).
Proof.
  unfold parse_string, ser_string. rewrite parse_bytes_ser.
  rewrite string_of_list_byte_of_string. reflexivity.
Qed.

Lemma length_ser_seq (chunks : list (list byte)) :
  List.length (ser_seq chunks) =
    S (fold_right (fun c n => S (List.length c + n)) 0 chunks).
Proof.
  unfold ser_seq. rewrite length_app. simpl.
  induction chunks as [|c chunks IH]; simpl in *; [reflexivity|].
  rewrite length_app. lia.
Qed.

Lemma length_ser_seq_in (chunks : list (list byte)) (c : list byte) :
  In c chunks -> List.length c + 2 <= List.length (ser_seq chunks).
Proof.
  rewrite length_ser_seq.
  induction chunks as [|c0 chunks IH]; simpl; [intros []|].
  intros [->|H]; [lia|]. specialize (IH H). lia.
Qed.

Lemma length_ser_seq_count (chunks : list (list byte)) :
  List.length chunks < List.length (ser_seq chunks).
Proof.
  rewrite length_ser_seq. induction chunks as [|c chunks IH]; simpl; lia.
Qed.

(** A sequence reads back when each of its elements does. *)
Lemma parse_seq_ser {A} (p : reader A) (f : A -> list byte) (l : list A) :
  (forall a, In a l -> forall rest, p (f a ++ rest) = Some (a, rest)) ->
  forall fuel rest,
    List.length l < fuel ->
    parse_seq p fuel (ser_seq (map f l) ++ rest) = Some (l, rest).
Proof.
  induction l as [|a l IH]; intros Hp fuel rest Hfuel.
  - destruct fuel; [lia|]. reflexivity.
  - destruct fuel; [simpl in Hfuel; lia|].
    cbn [map]. rewrite ser_seq_cons. cbn [parse_seq].
    rewrite (Hp a (or_introl eq_refl)).
    rewrite IH; [reflexivity | | simpl in Hfuel; lia].
    intros a' Ha'. apply Hp. right. exact Ha'.
Qed.

Lemma parse_ser (v : value) :
  forall fuel rest,
    List.length (ser v) <= fuel ->
    parse fuel (ser v ++ rest) = Some (v, rest).
Proof.
  induction v using value_nested_ind; intros fuel rest Hfuel;
    (destruct fuel as [|k]; [simpl in Hfuel; try destruct b; simpl in Hfuel; lia|]).
  - reflexivity.
  - reflexivity.
  - destruct b; reflexivity.
  - cbn [ser app parse]. unfold map_reader. rewrite parse_Z_ser. reflexivity.
  - cbn [ser app parse]. unfold map_reader. rewrite parse_Z_ser. reflexivity.
  - cbn [ser app parse]. unfold map_reader. rewrite parse_string_ser. reflexivity.
  - cbn [ser app parse]. unfold map_reader. rewrite parse_bytes_ser. reflexivity.
  - cbn [ser app parse]. unfold map_reader.
    cbn [ser List.length] in Hfuel.
    rewrite parse_seq_ser; [reflexivity | | ].
    + intros a Ha rest'. rewrite Forall_forall in H. apply H; [exact Ha|].
      pose proof (@length_ser_seq_in (map ser items) (ser a) (in_map ser _ _ Ha)). lia.
    + pose proof (length_ser_seq_count (map ser items)) as Hc.
      rewrite length_map in Hc. lia.
  - cbn [ser app parse]. unfold map_reader.
    cbn [ser List.length] in Hfuel.
    set (f := fun e : value * value => let '(k0, x) := e in ser k0 ++ ser x) in *.
    rewrite parse_seq_ser; [reflexivity | | ].
    + intros [k0 x] Ha rest'. rewrite Forall_forall in H.
      destruct (H _ Ha) as [Hk Hx]. simpl in Hk, Hx.
      pose proof (@length_ser_seq_in (map f entries) (f (k0, x)) (in_map f _ _ Ha)) as Hl.
      simpl in Hl. rewrite length_app in Hl.
      unfold pair_reader. simpl. rewrite <- app_assoc.
      rewrite Hk by lia. rewrite Hx by lia. reflexivity.
    + pose proof (length_ser_seq_count (map f entries)) as Hc.
      rewrite length_map in Hc. lia.
  - cbn [ser app parse]. unfold map_reader.
    cbn [ser List.length] in Hfuel.
    set (f := fun e : string * value => let '(k0, x) := e in ser_string k0 ++ ser x) in *.
    rewrite parse_seq_ser; [reflexivity | | ].
    + intros [k0 x] Ha rest'. rewrite Forall_forall in H.
      pose proof (H _ Ha) as Hx. simpl in Hx.
      pose proof (@length_ser_seq_in (map f props) (f (k0, x)) (in_map f _ _ Ha)) as Hl.
      simpl in Hl. rewrite length_app in Hl.
      unfold pair_reader. simpl. rewrite <- app_assoc.
      rewrite parse_string_ser. rewrite Hx by lia. reflexivity.
    + pose proof (length_ser_seq_count (map f props)) as Hc.
      rewrite length_map in Hc. lia.
Qed.

(** The reference pair is lawful: what the writer wrote, the reader returns,
    under any schema. *)
Lemma depolorize_documentEncode (v : value) (s s' : Schema) (d : Document) :
  documentEncode v s = Ok d -> depolorize (bytes d) s' = Ok v.
Proof.
  unfold documentEncode, depolorize. intros H. apply Ok_inj in H. subst d. simpl.
  pose proof (@parse_ser v (List.length (ser v)) [] (le_n _)) as Hp.
  rewrite app_nil_r in Hp. rewrite Hp. reflexivity.
Qed.

End RefCodecFacts.

(* ================================================================== *)
(** * The manifest coder *)

Module ManifestFacts.

(** Splits the successful steps of a computation in hypothesis [H], pairs
    included. *)
Ltac steps H :=
  repeat first
    [ progress bind_inv H
    | match type of H with
      | context [match ?x with pair _ _ => _ end] => is_var x; destruct x
      end ].

#[local] Arguments withField : simpl never.
#[local] Arguments fieldSchema : simpl never.
#[local] Arguments reconstructSchema : simpl never.

Section JsMapMore.
Variable V : Type.
Implicit Types (m : JsMap.t V) (k : string) (v : V).

Lemma set_same m k v : JsMap.get k m = Some v -> JsMap.set k v m = m.
Proof.
  induction m as [|[k0 v0] rest IH]; simpl; [discriminate|].
  destruct (String.eqb k k0) eqn:E.
  - apply String.eqb_eq in E. intros H. congruence.
  - intros H. rewrite (IH H). reflexivity.
Qed.

Lemma keys_set_present m k v v0 :
  JsMap.get k m = Some v0 -> JsMap.keys (JsMap.set k v m) = JsMap.keys m.
Proof.
  unfold JsMap.keys. induction m as [|[k1 v1] rest IH]; simpl; [discriminate|].
  destruct (String.eqb k k1) eqn:E; simpl.
  - apply String.eqb_eq in E. subst. reflexivity.
  - intros H. rewrite (IH H). reflexivity.
Qed.

Lemma get_In m k v : JsMap.get k m = Some v -> In (k, v) m.
Proof.
  induction m as [|[k0 v0] rest IH]; simpl; [discriminate|].
  destruct (String.eqb k k0) eqn:E.
  - apply String.eqb_eq in E. intros H. left. congruence.
  - intros H. right. auto.
Qed.
End JsMapMore.

Lemma fieldSchema_In (s child : Schema) (key : string) :
  fieldSchema s key = Ok child ->
  exists fs, fieldsOf s = Some fs /\ JsMap.get key fs = Some child.
Proof.
  unfold fieldSchema. destruct (fieldsOf s) as [fs|]; [|discriminate].
  destruct (JsMap.get key fs) as [c|] eqn:E; [|discriminate].
  intros H. apply Ok_inj in H. subst c. exists fs. auto.
Qed.

(** Writing back the child that is already there changes nothing. *)
Lemma withField_same (s child : Schema) (key : string) :
  fieldSchema s key = Ok child -> withField s key child = s.
Proof.
  intros H. destruct (fieldSchema_In _ _ H) as [fs [Hf Hg]].
  destruct s as [k f]. simpl in Hf. subst f. unfold withField.
  rewrite (set_same _ _ Hg). reflexivity.
Qed.

Lemma withField_kind (s child : Schema) (key : string) :
  kindOf (withField s key child) = kindOf s.
Proof. destruct s as [k [fs|]]; reflexivity. Qed.

Lemma stable_weaken (s : Schema) : stable s true = true -> stable s false = true.
Proof. destruct s as [[] fs]; simpl; auto. discriminate. Qed.

Lemma stable_flag (s : Schema) (u : bool) : stable s true = true -> stable s u = true.
Proof. destruct u; auto using stable_weaken. Qed.

(** The children of a stable array or map node are stable under the set
    flag, those of a stable struct node under the cleared flag. *)
Lemma stable_child (s child : Schema) (key : string) (u : bool) :
  stable s u = true ->
  fieldSchema s key = Ok child ->
  match kindOf s with
  | KArray | KMap => stable child true = true
  | KStruct => stable child false = true /\ u = false
  | _ => True
  end.
Proof.
  intros Hs Hc. destruct (fieldSchema_In _ _ Hc) as [fs [Hf Hg]].
  apply get_In in Hg.
  destruct s as [k f]. simpl in Hf. subst f.
  destruct k; simpl in *; auto.
  - rewrite forallb_forall in Hs. apply (Hs _ Hg).
  - rewrite forallb_forall in Hs. apply (Hs _ Hg).
  - apply andb_true_iff in Hs. destruct Hs as [Hu Hs].
    rewrite forallb_forall in Hs. split; [apply (Hs _ Hg)|].
    destruct u; [discriminate | reflexivity].
Qed.

Section Frame.
Variable documentEncode : value -> Schema -> result Document.

Lemma parseArray_framed (items : list value) :
  Forall (framed documentEncode) items ->
  forall values items' values',
    stable values true = true ->
    parseArray (parseCalldata documentEncode) values items = Ok (items', values') ->
    values' = values.
Proof.
  induction 1 as [|v rest Hv _ IH]; intros values items' values' Hs H; simpl in H.
  - apply Ok_inj in H. congruence.
  - steps H. apply Ok_inj in H. injection H as _ ->.
    apply Hv in E; [|apply stable_flag; exact Hs]. subst s.
    eapply IH; eauto.
Qed.

Lemma parseMap_framed (entries : list (value * value)) :
  Forall (fun e => framed documentEncode (fst e) /\ framed documentEncode (snd e)) entries ->
  forall schema acc map schema',
    kindOf schema = KMap ->
    stable schema true = true ->
    parseMap (parseCalldata documentEncode) schema entries acc = Ok (map, schema') ->
    schema' = schema.
Proof.
  induction 1 as [|[k v] rest [Hk Hv] _ IH]; intros schema acc map schema' Hkind Hs H;
    simpl in H.
  - apply Ok_inj in H. congruence.
  - steps H. simpl in Hk, Hv.
    pose proof (@stable_child _ _ _ _ Hs E) as Hks. rewrite Hkind in Hks.
    apply Hk in E0; [|apply stable_flag; exact Hks]. subst s.
    rewrite (withField_same _ _ E) in *.
    pose proof (@stable_child _ _ _ _ Hs E1) as Hvs. rewrite Hkind in Hvs.
    apply Hv in E2; [|apply stable_flag; exact Hvs]. subst s0.
    rewrite (withField_same _ _ E1) in *.
    eapply IH; eauto.
Qed.

Lemma parseProps_framed (props : list (string * value)) :
  Forall (fun e => framed documentEncode (snd e)) props ->
  forall schema props' schema',
    kindOf schema = KStruct ->
    stable schema false = true ->
    parseProps (parseCalldata documentEncode) schema props = Ok (props', schema') ->
    schema' = schema.
Proof.
  induction 1 as [|[k v] rest Hv _ IH]; intros schema props' schema' Hkind Hs H;
    simpl in H.
  - apply Ok_inj in H. congruence.
  - steps H. apply Ok_inj in H. injection H as _ ->. simpl in Hv.
    pose proof (@stable_child _ _ _ _ Hs E) as Hc. rewrite Hkind in Hc.
    destruct Hc as [Hc _].
    apply Hv in E0; [|exact Hc]. subst s.
    rewrite (withField_same _ _ E) in *.
    eapply IH; eauto.
Qed.

(** Frame: under a stable node, [parseCalldata] returns the node as it
    found it. *)
Lemma parseCalldata_framed (v : value) : framed documentEncode v.
Proof.
  induction v as [ | | b | n | n | str | bs | items IHi | entries IHe | props IHp ]
    using value_nested_ind;
    intros sch u v' sch' Hs Hp;
    destruct sch as [k fs]; destruct k; simpl in Hp;
    try (apply Ok_inj in Hp; congruence);
    try discriminate Hp.
  all: try (steps Hp; apply Ok_inj in Hp; congruence).
  all: try (steps Hp;
            repeat match type of Hp with
                   | context [if ?c then _ else _] => destruct c eqn:?
                   end;
            steps Hp; try discriminate Hp; apply Ok_inj in Hp; congruence).
  - (* array node, array argument *)
    steps Hp. destruct (parsable (kindOf x)).
    + steps Hp. apply Ok_inj in Hp. injection Hp as _ <-.
      pose proof (@stable_child _ _ _ _ Hs E) as Hc. simpl in Hc.
      apply (parseArray_framed IHi) in E0; [|exact Hc]. subst s.
      apply withField_same. exact E.
    + apply Ok_inj in Hp. congruence.
  - (* map node, map argument *)
    steps Hp. destruct x0.
    + steps Hp. apply Ok_inj in Hp. injection Hp as _ <-.
      eapply (parseMap_framed IHe); [reflexivity | | exact E1].
      destruct u; [exact Hs | exact Hs].
    + apply Ok_inj in Hp. congruence.
  - (* struct node, object argument *)
    steps Hp.
    assert (Hu : u = false).
    { simpl in Hs. destruct u; [discriminate | reflexivity]. }
    subst u. apply Ok_inj in Hp. injection Hp as _ <-.
    eapply (parseProps_framed IHp); [reflexivity | exact Hs | exact E].
Qed.
End Frame.

Lemma withField_keys (s child child' : Schema) (key : string) :
  fieldSchema s key = Ok child ->
  option_map JsMap.keys (fieldsOf (withField s key child')) =
    option_map JsMap.keys (fieldsOf s).
Proof.
  intros H. destruct (fieldSchema_In _ _ H) as [fs [Hf Hg]].
  destruct s as [k f]. simpl in Hf. subst f. unfold withField. simpl.
  rewrite (keys_set_present _ _ child' Hg). reflexivity.
Qed.

(** The loop of [parseStruct] keeps the node a node of its kind with its
    labels, whatever happens below it. *)
Lemma parseProps_labels self (props : list (string * value)) :
  forall schema props' schema',
    parseProps self schema props = Ok (props', schema') ->
    kindOf schema' = kindOf schema /\
    option_map JsMap.keys (fieldsOf schema') = option_map JsMap.keys (fieldsOf schema).
Proof.
  induction props as [|[k v] rest IH]; intros schema props' schema' H; simpl in H.
  - apply Ok_inj in H. injection H as _ <-. auto.
  - steps H. apply Ok_inj in H. injection H as _ <-.
    destruct (IH _ _ _ E1) as [Hk Hl].
    rewrite Hk, Hl, withField_kind, (withField_keys _ _ _ E). auto.
Qed.

Lemma parseCalldata_document documentEncode (arg : value) (u : bool) :
  parseCalldata documentEncode (Node KDocument None) arg u = Ok (arg, Node KDocument None).
Proof. destruct arg; reflexivity. Qed.

(** A struct node after [parseCalldata] has processed a value under it. *)
Lemma struct_node_after
    (documentEncode : value -> Schema -> result Document)
    (fs : option (list (string * Schema))) (arg : value) (updateType : bool)
    (v : value) (schema' : Schema) :
  parseCalldata documentEncode (Node KStruct fs) arg updateType = Ok (v, schema') ->
  (updateType = true -> schema' = Node KDocument None) /\
  (updateType = false ->
     exists fs0 fs',
       fs = Some fs0 /\
       schema' = Node KStruct (Some fs') /\
       JsMap.keys fs' = JsMap.keys fs0 /\
       (stable (Node KStruct fs) false = true -> fs' = fs0)).
Proof.
  intros H. destruct arg; try discriminate H. cbn [parseCalldata kindOf] in H.
  steps H. rename s into mid, x into copy, x0 into doc.
  destruct (parseProps_labels _ _ _ E) as [Hk Hl].
  split; intros ->; apply Ok_inj in H; injection H as _ <-.
  - reflexivity.
  - destruct mid as [k' [fs'|]]; [|unfold reconstructSchema in E0; discriminate E0].
    simpl in Hk. subst k'. destruct fs as [fs0|]; [|discriminate Hl].
    exists fs0, fs'. simpl in Hl. injection Hl as Hl.
    repeat split; [exact Hl|].
    intros Hs.
    pose proof (parseCalldata_framed documentEncode) as Hframe.
    assert (Hall : Forall (fun e : string * value => framed documentEncode (snd e)) props).
    { apply Forall_forall. intros e _. apply Hframe. }
    pose proof (@parseProps_framed _ _ Hall (Node KStruct (Some fs0)) _ _ eq_refl Hs E) as Heq.
    congruence.
Qed.

Lemma fieldSchema_withField (s child0 child : Schema) (key : string) :
  fieldSchema s key = Ok child0 ->
  fieldSchema (withField s key child) key = Ok child.
Proof.
  intros H. destruct (fieldSchema_In _ _ H) as [fs [Hf Hg]].
  destruct s as [k f]. simpl in Hf. subst f.
  unfold withField, fieldSchema. simpl.
  rewrite JsMapFacts.get_set, String.eqb_refl. reflexivity.
Qed.

Lemma fieldSchema_withField_other (s child : Schema) (key key' : string) :
  String.eqb key' key = false ->
  fieldSchema (withField s key child) key' = fieldSchema s key'.
Proof.
  intros Hne. destruct s as [k [fs|]]; [|reflexivity].
  unfold withField, fieldSchema. simpl.
  rewrite JsMapFacts.get_set, Hne. reflexivity.
Qed.

(** The element schema of an array of structs is a document node once the
    last element has been processed. *)
Lemma parseArray_struct_last
    (documentEncode : value -> Schema -> result Document) (items : list value) :
  forall fs items' schema',
    items <> [] ->
    parseArray (parseCalldata documentEncode) (Node KStruct fs) items = Ok (items', schema') ->
    schema' = Node KDocument None.
Proof.
  induction items as [|v rest IH]; intros fs items' schema' Hne H; [contradiction|].
  cbn [parseArray] in H. steps H. apply Ok_inj in H. injection H as _ <-.
  destruct (struct_node_after _ _ _ _ E) as [Hset Hclear].
  destruct rest as [|r rs].
  - rewrite (Hset eq_refl) in E0. cbn [parseArray] in E0. apply Ok_inj in E0. congruence.
  - destruct (Hclear eq_refl) as [fs0 [fs' [_ [-> _]]]].
    eapply IH; [discriminate | exact E0].
Qed.

(** The key or value schema of a map, when a struct, is a document node once
    the last entry has been processed. *)
Lemma parseMap_struct_last
    (documentEncode : value -> Schema -> result Document)
    (entries : list (value * value)) (key : string) :
  key = "keys" \/ key = "values" ->
  forall schema acc map schema' fs,
    entries <> [] ->
    fieldSchema schema key = Ok (Node KStruct fs) ->
    parseMap (parseCalldata documentEncode) schema entries acc = Ok (map, schema') ->
    fieldSchema schema' key = Ok (Node KDocument None).
Proof.
  intros Hkey.
  induction entries as [|[k v] rest IH]; intros schema acc map schema' fs Hne Hc H;
    [contradiction|].
  cbn [parseMap] in H. steps H.
  rename x into keys, s into keys', x0 into values, s0 into values'.
  assert (Hnext :
    fieldSchema (withField (withField schema "keys" keys') "values" values') key =
      Ok (if isLast rest then Node KDocument None
          else match (if String.eqb key "keys" then keys' else values') with
               | Node _ f => Node KStruct f
               end)
    /\ (isLast rest = false ->
        exists f, (if String.eqb key "keys" then keys' else values') = Node KStruct f)).
  { destruct Hkey as [-> | ->]; cbn [String.eqb Ascii.eqb Bool.eqb].
    - rewrite Hc in E. apply Ok_inj in E. subst keys.
      destruct (struct_node_after _ _ _ _ E0) as [Hset Hclear].
      rewrite fieldSchema_withField_other by reflexivity.
      rewrite (@fieldSchema_withField _ _ _ _ Hc).
      destruct (isLast rest).
      + rewrite (Hset eq_refl). split; [reflexivity | discriminate].
      + destruct (Hclear eq_refl) as [fs0 [fs' [_ [-> _]]]]. split; [reflexivity | eauto].
    - rewrite fieldSchema_withField_other in E1 by reflexivity.
      rewrite Hc in E1. apply Ok_inj in E1. subst values.
      destruct (struct_node_after _ _ _ _ E2) as [Hset Hclear].
      assert (Hv : fieldSchema (withField schema "keys" keys') "values" = Ok (Node KStruct fs))
        by (rewrite fieldSchema_withField_other by reflexivity; exact Hc).
      rewrite (@fieldSchema_withField _ _ _ _ Hv).
      destruct (isLast rest).
      + rewrite (Hset eq_refl). split; [reflexivity | discriminate].
      + destruct (Hclear eq_refl) as [fs0 [fs' [_ [-> _]]]]. split; [reflexivity | eauto]. }
  destruct Hnext as [Hnext Hstruct].
  destruct rest as [|e rest'].
  - cbn [parseMap] in H. apply Ok_inj in H. injection H as _ <-. exact Hnext.
  - destruct (Hstruct eq_refl) as [f Hf]. cbn [isLast] in Hnext. rewrite Hf in Hnext.
    eapply IH; [discriminate | exact Hnext | exact H].
Qed.

(** C7. A struct node processed with [updateType] set comes out as a
    document node without [fields], and such a node lets every later value
    through untouched.  This is what happens to the struct schema of a
    top-level field of [encodeArguments], to the element schema of an array
    at its last element, and to the key and the value schema of a map at its
    last entry.  Processed with [updateType] cleared, a struct node comes
    out a struct node with the same labels, and exactly as it went in when
    nothing below it is a struct that an array or a map reaches at its last
    element. *)
Theorem parseCalldata_struct_rewrite
    (documentEncode : value -> Schema -> result Document) :
  (forall fs arg v schema',
     parseCalldata documentEncode (Node KStruct fs) arg true = Ok (v, schema') ->
     schema' = Node KDocument None /\
     forall arg' u, parseCalldata documentEncode schema' arg' u = Ok (arg', schema')) /\
  (forall args acc schema field fs acc' schema',
     fieldSchema schema (label field) = Ok (Node KStruct fs) ->
     encodeStep documentEncode args (acc, schema) field = Ok (acc', schema') ->
     fieldSchema schema' (label field) = Ok (Node KDocument None)) /\
  (forall fa fs items u v schema',
     fieldSchema (Node KArray fa) "values" = Ok (Node KStruct fs) ->
     items <> [] ->
     parseCalldata documentEncode (Node KArray fa) (VArray items) u = Ok (v, schema') ->
     fieldSchema schema' "values" = Ok (Node KDocument None)) /\
  (forall fm key fs entries u v schema',
     key = "keys" \/ key = "values" ->
     fieldSchema (Node KMap fm) key = Ok (Node KStruct fs) ->
     entries <> [] ->
     parseCalldata documentEncode (Node KMap fm) (VMap entries) u = Ok (v, schema') ->
     fieldSchema schema' key = Ok (Node KDocument None)) /\
  (forall fs arg v schema',
     parseCalldata documentEncode (Node KStruct fs) arg false = Ok (v, schema') ->
     exists fs0 fs',
       fs = Some fs0 /\
       schema' = Node KStruct (Some fs') /\
       JsMap.keys fs' = JsMap.keys fs0 /\
       (stable (Node KStruct fs) false = true -> fs' = fs0)).
Proof.
  repeat split.
  - destruct (struct_node_after _ _ _ _ H) as [Hset _]. auto.
  - intros arg' u. destruct (struct_node_after _ _ _ _ H) as [Hset _].
    rewrite (Hset eq_refl). apply parseCalldata_document.
  - intros args acc schema field fs acc' schema' Hc H.
    unfold encodeStep in H. steps H. apply Ok_inj in H. injection H as _ <-.
    rewrite Hc in E. apply Ok_inj in E. subst x.
    destruct (struct_node_after _ _ _ _ E0) as [Hset _].
    rewrite (Hset eq_refl). apply (@fieldSchema_withField _ _ _ _ Hc).
  - intros fa fs items u v schema' Hc Hne H.
    cbn [parseCalldata kindOf] in H. rewrite Hc in H. cbn [bind kindOf parsable] in H.
    steps H. apply Ok_inj in H. injection H as _ <-.
    rewrite (@parseArray_struct_last _ _ _ _ _ Hne E). apply (@fieldSchema_withField _ _ _ _ Hc).
  - intros fm key fs entries u v schema' Hkey Hc Hne H.
    cbn [parseCalldata kindOf] in H. steps H.
    assert (Hparse : x0 = true).
    { destruct Hkey as [-> | ->].
      - rewrite Hc in E. apply Ok_inj in E. subst x. cbn [kindOf parsable] in E0.
        apply Ok_inj in E0. auto.
      - destruct (parsable (kindOf x)); [apply Ok_inj in E0; auto|].
        steps E0. rewrite Hc in E1. apply Ok_inj in E1. subst x1.
        apply Ok_inj in E0. auto. }
    subst x0. steps H. apply Ok_inj in H. injection H as _ <-.
    apply (@parseMap_struct_last _ _ _ Hkey _ _ _ _ _ Hne Hc E1).
  - intros fs arg v schema' H.
    destruct (struct_node_after _ _ _ _ H) as [_ Hclear]. auto.
Qed.

Lemma parseCalldata_struct_rewrite_witness :
  exists v schema',
    parseCalldata RefCodec.documentEncode Examples.personSchema Examples.personArg true
      = Ok (v, schema') /\
    schema' = Node KDocument None.
Proof.
  destruct (parseCalldata RefCodec.documentEncode Examples.personSchema Examples.personArg true)
    as [[v schema']|e] eqn:E.
  - exists v, schema'. split; [reflexivity|].
    exact (proj1 (proj1 (parseCalldata_struct_rewrite RefCodec.documentEncode) _ _ _ _ E)).
  - vm_compute in E. discriminate E.
Defined.

(* ------------------------------------------------------------------ *)
(** ** encodeArguments, decodeArguments *)









Section RoundTrip.
Variable documentEncode : value -> Schema -> result Document.
Variable depolorize : list byte -> Schema -> result value.
Variable parseDataType : string -> result Schema.
Variable getRoutineElement : string -> result Routine.
Variable args : list value.

(** The [reduce] of [encodeArguments] stores, label by label, the values the
    callback computes under the schema as threaded. *)
Lemma encode_loop (fields : list Field) :
  forall schema acc obj schema',
    forEach (encodeStep documentEncode args) fields (acc, schema) = Ok (obj, schema') ->
    exists ns,
      normalisedFrom documentEncode args schema fields ns schema' /\
      obj = storeAll fields ns acc.
Proof.
  induction fields as [|f fields IH]; intros schema acc obj schema' H; simpl in H.
  - apply Ok_inj in H. injection H as <- <-. exists []. split; reflexivity.
  - steps H. unfold encodeStep in E. steps E. apply Ok_inj in E. subst x.
    destruct (IH _ _ _ _ H) as [ns [Hns ->]].
    exists (v :: ns). split; [|reflexivity].
    simpl. exists x0, s. auto.
Qed.





End RoundTrip.

Lemma refCodec_lawful : lawful RefCodec.documentEncode RefCodec.depolorize.
Proof. intros v s d. apply RefCodecFacts.depolorize_documentEncode. Qed.



(* ------------------------------------------------------------------ *)
(** ** decodeArguments without an accepts list *)

(** C10. A routine object without [accepts] never yields a result from
    [decodeArguments]: the call raises, and when the calldata converts and
    decodes it raises the [TypeError] of the projection [fields.map]; a
    routine whose [accepts] is the empty list yields [null]. *)
Theorem decodeArguments_absent_accepts
    (depolorize : list byte -> Schema -> result value)
    (parseDataType : string -> result Schema)
    (getRoutineElement : string -> result Routine)
    (routine : Routine) (calldata : string) :
  accepts routine = None ->
  (exists e,
     decodeArguments depolorize parseDataType getRoutineElement (ByObject routine) calldata
       = Throw e) /\
  (forall wire decoded,
     hexToBytes calldata = Ok wire ->
     depolorize wire (Node KStruct (Some [])) = Ok decoded ->
     decodeArguments depolorize parseDataType getRoutineElement (ByObject routine) calldata
       = Throw (TypeError "Cannot read properties of undefined (reading 'map')")) /\
  (forall other,
     accepts other = Some [] ->
     decodeArguments depolorize parseDataType getRoutineElement (ByObject other) calldata
       = Ok VNull).
Proof.
  intros Hacc. unfold decodeArguments. cbn [routineFields bind]. rewrite Hacc.
  cbn [orEmpty parseFields forEach bind]. repeat split.
  - destruct (hexToBytes calldata) as [wire|e]; cbn [bind]; [|eauto].
    destruct (depolorize wire (Node KStruct (Some []))) as [d|e]; cbn [bind]; eauto.
  - intros wire decoded Hw Hd. rewrite Hw. cbn [bind]. rewrite Hd. reflexivity.
  - intros other Hother. rewrite Hother. reflexivity.
Qed.

Lemma decodeArguments_absent_accepts_witness :
  decodeArguments RefCodec.depolorize RefCodec.parseDataType RefCodec.getRoutineElement
    (ByObject Examples.absentRoutine) "0x0900"
    = Throw (TypeError "Cannot read properties of undefined (reading 'map')") /\
  decodeArguments RefCodec.depolorize RefCodec.parseDataType RefCodec.getRoutineElement
    (ByObject Examples.emptyRoutine) "0x0900"
    = Ok VNull.
Proof.
  destruct (@decodeArguments_absent_accepts
              RefCodec.depolorize RefCodec.parseDataType RefCodec.getRoutineElement
              Examples.absentRoutine "0x0900" eq_refl) as [_ [Hthrow Hnull]].
  split.
  - apply (Hthrow [x09; x00] (VObject [])); reflexivity.
  - apply Hnull. reflexivity.
Defined.

(* ------------------------------------------------------------------ *)
(** ** decodeEventOutput *)

(** C8 (defect). For the built-in log event, empty log data is not answered
    with [null]: it goes to the reader as an empty wire, and the result is
    whatever the reader makes of it, an error with the reference reader.
    For an event of the manifest, empty log data is answered with [null]. *)
Theorem decodeEventOutput_builtin_log_empty
    (depolorize : list byte -> Schema -> result value)
    (parseDataType : string -> result Schema)
    (getEventElement : string -> option EventData)
    (builtInLogEventSchema : Schema) :
  decodeEventOutput depolorize parseDataType getEventElement builtInLogEventSchema
    "builtin.Log" "0x" = depolorize [] builtInLogEventSchema /\
  decodeEventOutput depolorize parseDataType getEventElement builtInLogEventSchema
    "builtin.Log" "" = depolorize [] builtInLogEventSchema /\
  decodeEventOutput RefCodec.depolorize RefCodec.parseDataType RefCodec.getEventElement
    RefCodec.builtInLogEventSchema "builtin.Log" "0x"
    = Throw (PlainError "insufficient data in wire for decode") /\
  decodeEventOutput RefCodec.depolorize RefCodec.parseDataType RefCodec.getEventElement
    RefCodec.builtInLogEventSchema "Transfer" "0x" = Ok VNull.
Proof. repeat split. Qed.

End ManifestFacts.

(* ================================================================== *)
(** * More on the interaction serializer *)

Module SerializerMore.
Import Examples MoreExamples SerializerFacts.

Section JsMapKeys.
Variable V : Type.
Implicit Types (m : JsMap.t V) (k : string) (v : V).

Lemma has_In m k : JsMap.has k m = true <-> In k (JsMap.keys m).
Proof.
  unfold JsMap.has, JsMap.keys. induction m as [|[k0 v0] rest IH]; simpl.
  - split; [discriminate | intros []].
  - destruct (String.eqb k k0) eqn:E.
    + apply String.eqb_eq in E. subst. split; auto.
    + rewrite IH. split; [auto|]. intros [H|H]; [|exact H].
      subst. rewrite String.eqb_refl in E. discriminate E.
Qed.

Lemma keys_set m k v :
  JsMap.keys (JsMap.set k v m) =
    if JsMap.has k m then JsMap.keys m else JsMap.keys m ++ [k].
Proof.
  unfold JsMap.has, JsMap.keys. induction m as [|[k0 v0] rest IH]; simpl; [reflexivity|].
  destruct (String.eqb k k0) eqn:E; simpl.
  - apply String.eqb_eq in E. subst. reflexivity.
  - rewrite IH. destruct (JsMap.get k rest); reflexivity.
Qed.

Lemma set_NoDup m k v : NoDup (JsMap.keys m) -> NoDup (JsMap.keys (JsMap.set k v m)).
Proof.
  intros H. rewrite keys_set. destruct (JsMap.has k m) eqn:E; [exact H|].
  apply NoDup_app; [exact H | repeat constructor; intros [] |].
  intros x Hx [<-|[]]. apply has_In in Hx. congruence.
Qed.

Lemma has_set m k k' v : JsMap.has k m = true -> JsMap.has k (JsMap.set k' v m) = true.
Proof.
  unfold JsMap.has. rewrite JsMapFacts.get_set.
  destruct (String.eqb k k'); [reflexivity | auto].
Qed.

Lemma get_values m k v : JsMap.get k m = Some v -> In v (JsMap.values m).
Proof.
  unfold JsMap.values. induction m as [|[k0 v0] rest IH]; simpl; [discriminate|].
  destruct (String.eqb k k0); [intros H; left; congruence | auto].
Qed.

Lemma values_get m v : In v (JsMap.values m) -> NoDup (JsMap.keys m) ->
  exists k, JsMap.get k m = Some v.
Proof.
  unfold JsMap.values, JsMap.keys. induction m as [|[k0 v0] rest IH]; simpl; [intros []|].
  intros [<-|H] Hnd.
  - exists k0. rewrite String.eqb_refl. reflexivity.
  - inversion Hnd as [|? ? Hnotin Hnd']. subst. destruct (IH H Hnd') as [k Hk].
    exists k. destruct (String.eqb k k0) eqn:E; [|exact Hk].
    apply String.eqb_eq in E. subst. exfalso. apply Hnotin.
    clear -Hk. induction rest as [|[k1 v1] rest IH]; simpl in *; [discriminate|].
    destruct (String.eqb k0 k1) eqn:E; [apply String.eqb_eq in E; auto | auto].
Qed.
End JsMapKeys.

Lemma forEach_app {S X} (f : S -> X -> result S) (xs ys : list X) (s : S) :
  forEach f (xs ++ ys) s = (s' <- forEach f xs s ;; forEach f ys s').
Proof.
  revert s. induction xs as [|x xs IH]; intros s; simpl; [reflexivity|].
  destruct (f s x); simpl; auto.
Qed.

(** ** Funds *)

Lemma fundsStep_NoDup acc tx acc' :
  NoDup (JsMap.keys acc) -> fundsStep acc tx = Ok acc' -> NoDup (JsMap.keys acc').
Proof.
  intros Hnd H. unfold fundsStep in H.
  destruct (tx_type tx); try (apply Ok_inj in H; subst; exact Hnd);
    bind_inv H; destruct (payload_amount x) as [pa|]; try discriminate H;
    destruct (isBigint pa || _); apply Ok_inj in H; subst; apply set_NoDup; exact Hnd.
Qed.

Lemma suppliedFundStep_NoDup acc f :
  NoDup (JsMap.keys acc) -> NoDup (JsMap.keys (suppliedFundStep acc f)).
Proof.
  intros Hnd. unfold suppliedFundStep.
  destruct (negb _); [apply set_NoDup|]; exact Hnd.
Qed.

(** X1. The canonical funds name every asset once. *)
Theorem processFunds_distinct_assets (ix : InteractionObject)
    (fs : list ProcessedIxAssetFund) :
  processFunds ix = Ok fs -> NoDup (map p_asset_id fs).
Proof.
  unfold processFunds. intros H. bind_inv H. apply Ok_inj in H. subst fs.
  rewrite map_map. change (NoDup (JsMap.keys (mergeSuppliedFunds (funds ix) x))).
  assert (Hx : NoDup (JsMap.keys x)).
  { revert E. unfold impliedFunds.
    apply (@forEach_invariant _ _ fundsStep (fun m => NoDup (JsMap.keys m))).
    - intros s tx s'. apply fundsStep_NoDup.
    - constructor. }
  unfold mergeSuppliedFunds. destruct (funds ix) as [supplied|]; [|exact Hx].
  clear E. revert x Hx. induction supplied as [|f rest IH]; intros x Hx; simpl; [exact Hx|].
  apply IH. apply suppliedFundStep_NoDup. exact Hx.
Qed.

Lemma processFunds_distinct_assets_witness :
  exists fs, processFunds mixedFundsIx = Ok fs /\ NoDup (map p_asset_id fs).
Proof.
  eexists. split; [reflexivity|].
  apply (@processFunds_distinct_assets mixedFundsIx). reflexivity.
Defined.

Lemma fundsStep_get (a : string) acc tx acc' :
  (forall p id, isFundTx tx = true -> tx_payload tx = Some p ->
                payload_asset_id p = Some id -> trimHexPrefix id = id) ->
  fundsStep acc tx = Ok acc' ->
  JsMap.get a acc' =
    match fundAmountOf a tx with
    | Some n => addAmount (JsMap.get a acc) n
    | None => JsMap.get a acc
    end.
Proof.
  intros Hplain H. unfold fundAmountOf, isFundTx in *. unfold fundsStep in H.
  destruct (tx_type tx); try (apply Ok_inj in H; subst; reflexivity);
    bind_inv H; unfold readPayload in E; destruct (tx_payload tx) as [p|]; try discriminate E;
    apply Ok_inj in E; subst x;
    unfold asString in E0; destruct (payload_asset_id p) as [id|] eqn:Eid; try discriminate E0;
    apply Ok_inj in E0; subst x0;
    destruct (payload_amount p) as [pa|]; try discriminate H;
    rewrite (Hplain p id eq_refl eq_refl Eid) in H;
    assert (Hacc : acc' = JsMap.set id
                     (if isBigint pa || isBigint
                           match JsMap.get id acc with Some a0 => a0 | None => Num 0 end
                      then Big (toZ pa + toZ match JsMap.get id acc with
                                             | Some a0 => a0 | None => Num 0 end)
                      else Num (toZ pa + toZ match JsMap.get id acc with
                                             | Some a0 => a0 | None => Num 0 end)) acc)
      by (destruct (isBigint pa || _); apply Ok_inj in H; auto);
    rewrite Hacc, JsMapFacts.get_set, String.eqb_sym;
    (destruct (String.eqb id a) eqn:Ea; [|reflexivity]);
    apply String.eqb_eq in Ea; subst a; reflexivity.
Qed.

Lemma impliedFunds_get (a : string) (txs : list IxTransaction) :
  forall acc0 acc,
    plainAssetIds txs ->
    forEach fundsStep txs acc0 = Ok acc ->
    JsMap.get a acc = fold_left addAmount (fundAmounts a txs) (JsMap.get a acc0).
Proof.
  induction txs as [|tx rest IH]; intros acc0 acc Hplain H; simpl in H.
  - apply Ok_inj in H. subst. reflexivity.
  - bind_inv H. rewrite (IH x acc); [| | exact H].
    + cbn [fundAmounts].
      rewrite (@fundsStep_get a acc0 tx x); [| |exact E].
      * destruct (fundAmountOf a tx); reflexivity.
      * intros p id Hf Hp Hid. apply (Hplain tx p id); auto. left. reflexivity.
    + intros tx' p id Hin. apply Hplain. right. exact Hin.
Qed.

Lemma sumOf_cons_add (n c : numeric) (l : list numeric) :
  sumOf ((if isBigint n || isBigint c then Big (toZ n + toZ c) else Num (toZ n + toZ c)) :: l)
  = sumOf (c :: n :: l).
Proof.
  unfold sumOf. cbn [existsb total fold_right].
  destruct (isBigint n), (isBigint c); cbn [orb isBigint toZ];
    destruct (existsb isBigint l); f_equal; lia.
Qed.

Lemma fold_addAmount_some (l : list numeric) (c : numeric) :
  fold_left addAmount l (Some c) = Some (sumOf (c :: l)).
Proof.
  revert c. induction l as [|n l IH]; intros c.
  - simpl. unfold sumOf. simpl. destruct c; simpl; f_equal; f_equal; lia.
  - cbn [fold_left]. unfold addAmount at 2. rewrite IH. rewrite sumOf_cons_add. reflexivity.
Qed.

Lemma sumOf_swap (c n : numeric) (l : list numeric) :
  sumOf (c :: n :: l) = sumOf (n :: c :: l).
Proof.
  unfold sumOf. cbn [existsb total fold_right].
  rewrite !orb_assoc, (orb_comm (isBigint c)).
  destruct (isBigint n || isBigint c || existsb isBigint l); f_equal; lia.
Qed.

Lemma fold_addAmount_none (l : list numeric) :
  fold_left addAmount l None =
    match l with
    | [] => None
    | _ => Some (sumOf l)
    end.
Proof.
  destruct l as [|n l]; [reflexivity|].
  cbn [fold_left]. unfold addAmount at 2. rewrite fold_addAmount_some.
  f_equal. unfold sumOf. cbn [existsb total fold_right isBigint toZ].
  rewrite orb_false_r.
  destruct (isBigint n) eqn:En; cbn [isBigint orb toZ].
  - f_equal. lia.
  - destruct (existsb isBigint l); f_equal; lia.
Qed.

(** X2. When the fund transactions name their assets without the "0x"
    marker and the amounts named for an asset stay where the addition of JS
    numbers is exact (every [number] amount and every running total that is
    still a [number] is a safe integer), every asset that some
    [ASSET_TRANSFER] or [ASSET_BURN] names has an entry in the canonical
    funds holding the sum of the amounts of all such transactions, a
    [bigint] as soon as one of the amounts is. *)
Theorem processFunds_sums_plain_assets (ix : InteractionObject)
    (fs : list ProcessedIxAssetFund) (a : string) :
  processFunds ix = Ok fs ->
  plainAssetIds (transactions ix) ->
  safeAmounts (fundAmounts a (transactions ix)) ->
  fundAmounts a (transactions ix) <> [] ->
  In {| p_asset_id := a; p_amount := sumOf (fundAmounts a (transactions ix)) |} fs.
Proof.
  unfold processFunds. intros H Hplain _ Hne. bind_inv H. apply Ok_inj in H. subst fs.
  pose proof (@impliedFunds_get a (transactions ix) [] x Hplain E) as Hget.
  cbn [JsMap.get] in Hget. rewrite fold_addAmount_none in Hget.
  destruct (fundAmounts a (transactions ix)) as [|n l] eqn:El; [contradiction|].
  assert (Hm : JsMap.get a (mergeSuppliedFunds (funds ix) x) = Some (sumOf (n :: l))).
  { unfold mergeSuppliedFunds. destruct (funds ix) as [supplied|]; [|exact Hget].
    rewrite mergeSupplied_get, Hget. reflexivity. }
  set (m := mergeSuppliedFunds (funds ix) x) in *. clearbody m. clear -Hm.
  induction m as [|[k0 v0] m IH]; simpl in *; [discriminate|].
  destruct (String.eqb a k0) eqn:E0.
  - apply String.eqb_eq in E0. left. unfold fundEntry. simpl. congruence.
  - right. auto.
Qed.

Lemma processFunds_sums_plain_assets_witness :
  exists fs,
    processFunds mixedFundsIx = Ok fs /\
    In {| p_asset_id := "a1"; p_amount := Big 9 |} fs.
Proof.
  eexists. split; [reflexivity|].
  apply (@processFunds_sums_plain_assets mixedFundsIx _ "a1").
  - reflexivity.
  - intros tx p id Hin Hf Hp Hid. simpl in Hin.
    repeat (destruct Hin as [<-|Hin];
            [simpl in Hp; try discriminate Hf; injection Hp as <-;
             simpl in Hid; injection Hid as <-; reflexivity|]).
    contradiction.
  - split.
    + intros n Hin. simpl in Hin.
      repeat (destruct Hin as [Heq|Hin];
              [try discriminate Heq; injection Heq as <-; unfold safeInteger; simpl; lia|]).
      contradiction.
    + intros k Hk.
      destruct k as [|[|[|k]]]; simpl in Hk; try discriminate Hk;
        unfold safeInteger; simpl; lia.
  - discriminate.
Defined.

Lemma fundsStep_other acc tx : isFundTx tx = false -> fundsStep acc tx = Ok acc.
Proof. unfold isFundTx, fundsStep. destruct (tx_type tx); intros H; try discriminate H; reflexivity. Qed.

(** X3. Only [ASSET_TRANSFER] and [ASSET_BURN] transactions count for the
    funds: leaving every other transaction out of the interaction changes
    neither the canonical funds nor the failure. *)
Theorem processFunds_reads_fund_transactions_only (ix : InteractionObject) :
  processFunds (withTransactions ix (filter isFundTx (transactions ix))) = processFunds ix.
Proof.
  unfold processFunds, impliedFunds. cbn [withTransactions transactions funds].
  f_equal. generalize (@nil (string * numeric)).
  induction (transactions ix) as [|tx rest IH]; intros acc; [reflexivity|].
  cbn [filter]. destruct (isFundTx tx) eqn:E.
  - cbn [forEach]. destruct (fundsStep acc tx); simpl; auto.
  - cbn [forEach]. rewrite fundsStep_other by exact E. simpl. apply IH.
Qed.

(** ** Participants *)

Lemma forEach_invariant_In {S X} (f : S -> X -> result S) (P : S -> Prop) (xs : list X) :
  (forall s x s', In x xs -> P s -> f s x = Ok s' -> P s') ->
  forall s s', P s -> forEach f xs s = Ok s' -> P s'.
Proof.
  induction xs as [|x rest IH]; simpl; intros Hstep s s' Hs H.
  - apply Ok_inj in H. subst. exact Hs.
  - bind_inv H. apply (IH (fun s0 y s1 Hy => Hstep s0 y s1 (or_intror Hy)) x0 s');
      [|exact H].
    apply (Hstep s x x0); auto.
Qed.

Lemma forEach_throws {S X} (f : S -> X -> result S) (xs : list X) (x : X) :
  In x xs ->
  (forall s, exists e, f s x = Throw e) ->
  forall s, exists e, forEach f xs s = Throw e.
Proof.
  intros Hin Hx. induction xs as [|y rest IH]; [contradiction|].
  intros s. simpl. destruct Hin as [->|Hin].
  - destruct (Hx s) as [e He]. rewrite He. simpl. eauto.
  - destruct (f s y) as [s'|e]; simpl; [apply IH; exact Hin | eauto].
Qed.

Lemma participantStep_unsupported ps tx :
  isUnsupportedTx tx = true ->
  participantStep ps tx = Throw (CustomError "Unsupported Ix type" INVALID_ARGUMENT None).
Proof.
  unfold isUnsupportedTx, participantStep. destruct (tx_type tx); intros H;
    try discriminate H. reflexivity.
Qed.

(** X4. An interaction holding a transaction whose type is outside the
    seven never canonicalizes: [processParticipants] raises, and
    [serializeIxObject] raises its wrapping error.  When the sender, the
    payer and the transactions before the first such transaction are
    processed without error, [processParticipants] raises "Unsupported Ix
    type" with code [INVALID_ARGUMENT]. *)
Theorem unsupported_transaction_rejected
    (serializePayload : TxType -> TxPayload -> result (list byte))
    (polorizeIxObject : ProcessedIxObject -> result (list byte))
    (ix : InteractionObject) (pre post : list IxTransaction) (tx : IxTransaction) :
  transactions ix = pre ++ tx :: post ->
  isUnsupportedTx tx = true ->
  (exists e, processParticipants ix = Throw e) /\
  (exists cause,
     serializeIxObject serializePayload polorizeIxObject ix =
       Throw (CustomError "Failed to serialize interaction object" UNKNOWN_ERROR
                (Some (CustomError "Failed to process interaction object" UNKNOWN_ERROR
                         (Some cause))))) /\
  (forall ps,
     processParticipants (upTo ix pre) = Ok ps ->
     processParticipants ix =
       Throw (CustomError "Unsupported Ix type" INVALID_ARGUMENT None)).
Proof.
  intros Htxs Hun.
  assert (Hfail : exists e, processParticipants ix = Throw e).
  { unfold processParticipants, participantMap.
    destruct (hexToBytes (sender ix)) as [b|e]; simpl; [|eauto].
    destruct (match payer ix with
              | Some p => _
              | None => _
              end) as [ps1|e]; simpl; [|eauto].
    assert (Ht : forall s, exists e, forEach participantStep (transactions ix) s = Throw e).
    { apply forEach_throws with (x := tx).
      - rewrite Htxs. apply in_or_app. right. left. reflexivity.
      - intros s. rewrite participantStep_unsupported by exact Hun. eauto. }
    destruct (Ht ps1) as [e He]. rewrite He. simpl. eauto. }
  split; [exact Hfail|]. split.
  - destruct Hfail as [e He]. unfold serializeIxObject, processIxObject.
    destruct (hexToBytes (sender ix)) as [b|e1]; cbn [bind try_wrap]; [|eauto].
    destruct (hexToBytes ZERO_ADDRESS) as [z|e2]; cbn [bind try_wrap]; [|eauto].
    destruct (processFunds ix) as [fs|e3]; cbn [bind try_wrap]; [|eauto].
    destruct (processTransactions serializePayload (transactions ix)) as [ts|e4];
      cbn [bind try_wrap]; [|eauto].
    rewrite He. cbn [bind try_wrap]. eauto.
  - intros ps Hpre. unfold processParticipants, participantMap in *.
    cbn [upTo sender payer transactions participants] in Hpre.
    destruct (hexToBytes (sender ix)) as [b|e]; [|discriminate Hpre]. cbn [bind] in *.
    destruct (match payer ix with
              | Some p => _
              | None => _
              end) as [ps1|e]; [|discriminate Hpre]. cbn [bind] in *.
    rewrite Htxs, forEach_app.
    destruct (forEach participantStep pre ps1) as [ps2|e]; [|discriminate Hpre].
    cbn [bind forEach]. rewrite participantStep_unsupported by exact Hun. reflexivity.
Qed.

Lemma unsupported_transaction_rejected_witness :
  processParticipants unsupportedIx =
    Throw (CustomError "Unsupported Ix type" INVALID_ARGUMENT None).
Proof.
  destruct (@unsupported_transaction_rejected
              (fun _ _ => Ok []) (fun _ => Ok []) unsupportedIx
              [transfer "0x0c" "a1" (Num 5)] []
              {| tx_type := TX_OTHER 4;
                 tx_payload := Some (AssetCreatePayload "MOI" (Num 1)) |}
              eq_refl eq_refl) as [_ [_ H]].
  eapply H. reflexivity.
Defined.

Lemma set_keyed ps k p :
  keyedByAddress ps -> hexToBytes k = Ok (p_address p) ->
  keyedByAddress (JsMap.set k p ps).
Proof.
  intros Hinv Hk k' p'. rewrite JsMapFacts.get_set.
  destruct (String.eqb k' k) eqn:E; [|apply Hinv].
  apply String.eqb_eq in E. subst. intros H. injection H as <-. exact Hk.
Qed.

Lemma participantStep_keyed ps tx ps' :
  keyedByAddress ps -> participantStep ps tx = Ok ps' -> keyedByAddress ps'.
Proof.
  intros Hinv H. unfold participantStep in H. cbv zeta in H.
  destruct (tx_type tx); bind_inv H; try discriminate H;
    apply Ok_inj in H; subst ps'; try exact Hinv;
    apply set_keyed; assumption.
Qed.

Lemma suppliedParticipantStep_keyed ps q ps' :
  keyedByAddress ps -> suppliedParticipantStep ps q = Ok ps' -> keyedByAddress ps'.
Proof.
  intros Hinv H. unfold suppliedParticipantStep in H. cbv zeta in H.
  destruct (negb _); [|apply Ok_inj in H; subst; exact Hinv].
  bind_inv H. apply Ok_inj in H. subst ps'.
  apply set_keyed; [exact Hinv|]. simpl. apply HexFacts.hexToBytes_trim. exact E.
Qed.

Lemma participantStep_has ps tx ps' k :
  JsMap.has k ps = true -> participantStep ps tx = Ok ps' -> JsMap.has k ps' = true.
Proof.
  intros Hk H. unfold participantStep in H. cbv zeta in H.
  destruct (tx_type tx); bind_inv H; try discriminate H;
    apply Ok_inj in H; subst ps'; try exact Hk; apply has_set; exact Hk.
Qed.

Lemma suppliedParticipantStep_has ps q ps' k :
  JsMap.has k ps = true -> suppliedParticipantStep ps q = Ok ps' -> JsMap.has k ps' = true.
Proof.
  intros Hk H. unfold suppliedParticipantStep in H. cbv zeta in H.
  destruct (negb _); [|apply Ok_inj in H; subst; exact Hk].
  bind_inv H. apply Ok_inj in H. subst ps'. apply has_set. exact Hk.
Qed.

Lemma has_set_same {V} (m : JsMap.t V) k v : JsMap.has k (JsMap.set k v m) = true.
Proof. unfold JsMap.has. rewrite JsMapFacts.get_set, String.eqb_refl. reflexivity. Qed.

Lemma participantStep_implied ps tx ps' a :
  participantStep ps tx = Ok ps' -> impliedAddress tx = Some a -> JsMap.has a ps' = true.
Proof.
  intros H Ha. unfold participantStep in H. unfold impliedAddress in Ha. cbv zeta in H.
  destruct (tx_type tx); try discriminate Ha; bind_inv H;
    unfold readPayload in E; destruct (tx_payload tx) as [p|]; try discriminate E;
    apply Ok_inj in E; subst x;
    unfold asString in E0;
    match type of E0 with
    | match ?o with _ => _ end = _ => destruct o as [id|]; [|discriminate E0]
    end;
    apply Ok_inj in E0; subst x0; simpl in Ha; injection Ha as <-;
    apply Ok_inj in H; subst ps'; apply has_set_same.
Qed.

Lemma forEach_participantStep_has (txs : list IxTransaction) :
  forall ps ps' tx a,
    forEach participantStep txs ps = Ok ps' ->
    In tx txs -> impliedAddress tx = Some a ->
    JsMap.has a ps' = true.
Proof.
  induction txs as [|t rest IH]; intros ps ps' tx a H Hin Ha; [contradiction|].
  simpl in H. bind_inv H. destruct Hin as [->|Hin].
  - revert H. apply (@forEach_invariant _ _ participantStep
                       (fun m => JsMap.has a m = true)).
    + intros s y s'. apply participantStep_has.
    + eapply participantStep_implied; eauto.
  - eapply IH; eauto.
Qed.

Lemma forEach_supplied_has (supplied : list IxParticipant) :
  forall ps ps' q,
    forEach suppliedParticipantStep supplied ps = Ok ps' ->
    In q supplied ->
    JsMap.has (trimHexPrefix (participant_address q)) ps' = true.
Proof.
  induction supplied as [|t rest IH]; intros ps ps' q H Hin; [contradiction|].
  simpl in H. bind_inv H. destruct Hin as [->|Hin].
  - revert H. apply (@forEach_invariant _ _ suppliedParticipantStep
                       (fun m => JsMap.has (trimHexPrefix (participant_address q)) m = true)).
    + intros s y s'. apply suppliedParticipantStep_has.
    + unfold suppliedParticipantStep in E. cbv zeta in E.
      destruct (JsMap.has (trimHexPrefix (participant_address q)) ps) eqn:Eh; simpl in E.
      * apply Ok_inj in E. subst. exact Eh.
      * bind_inv E. apply Ok_inj in E. subst. apply has_set_same.
  - eapply IH; eauto.
Qed.

(** What is known of the participant map once it is built. *)
Lemma participantMap_facts (ix : InteractionObject) ps :
  participantMap ix = Ok ps ->
  keyedByAddress ps /\
  (JsMap.has (trimHexPrefix (sender ix)) ps = true /\
   exists b, hexToBytes (sender ix) = Ok b) /\
  (forall py, payer ix = Some py ->
     JsMap.has (trimHexPrefix py) ps = true /\ exists b, hexToBytes py = Ok b) /\
  (forall tx a, In tx (transactions ix) -> impliedAddress tx = Some a ->
                JsMap.has a ps = true) /\
  (forall supplied q, participants ix = Some supplied -> In q supplied ->
                      JsMap.has (trimHexPrefix (participant_address q)) ps = true).
Proof.
  intros H. unfold participantMap in H. bind_inv H.
  rename x into b, x0 into ps1, x1 into ps2.
  set (ps0 := JsMap.set (trimHexPrefix (sender ix)) (mutate b) []) in *.
  assert (K0 : keyedByAddress ps0).
  { apply set_keyed; [intros k p Hk; discriminate Hk|].
    apply HexFacts.hexToBytes_trim. exact E. }
  assert (S0 : JsMap.has (trimHexPrefix (sender ix)) ps0 = true) by apply has_set_same.
  assert (K1 : keyedByAddress ps1 /\
               JsMap.has (trimHexPrefix (sender ix)) ps1 = true /\
               forall py, payer ix = Some py ->
                 JsMap.has (trimHexPrefix py) ps1 = true /\
                 exists b', hexToBytes py = Ok b').
  { destruct (payer ix) as [p|].
    - bind_inv E0. apply Ok_inj in E0. subst ps1. split; [|split].
      + apply set_keyed; [exact K0|]. apply HexFacts.hexToBytes_trim. exact E2.
      + apply has_set. exact S0.
      + intros py Hpy. injection Hpy as <-. split; [apply has_set_same | eauto].
    - apply Ok_inj in E0. subst ps1. split; [|split]; auto.
      intros py Hpy. discriminate Hpy. }
  destruct K1 as [K1 [S1 P1]].
  assert (K2 : keyedByAddress ps2).
  { revert E1. apply (@forEach_invariant _ _ participantStep keyedByAddress); [|exact K1].
    intros s x s'. apply participantStep_keyed. }
  assert (M2 : forall k, JsMap.has k ps1 = true -> JsMap.has k ps2 = true).
  { intros k Hk. revert E1.
    apply (@forEach_invariant _ _ participantStep (fun m => JsMap.has k m = true));
      [|exact Hk].
    intros s x s'. apply participantStep_has. }
  assert (T2 : forall tx a, In tx (transactions ix) -> impliedAddress tx = Some a ->
                            JsMap.has a ps2 = true).
  { intros tx a. apply (@forEach_participantStep_has _ _ _ tx a E1). }
  destruct (participants ix) as [supplied|].
  - assert (M3 : forall k, JsMap.has k ps2 = true -> JsMap.has k ps = true).
    { intros k Hk. revert H.
      apply (@forEach_invariant _ _ suppliedParticipantStep
               (fun m => JsMap.has k m = true)); [|exact Hk].
      intros s x s'. apply suppliedParticipantStep_has. }
    split; [|split; [|split; [|split]]].
    + revert H. apply (@forEach_invariant _ _ suppliedParticipantStep keyedByAddress);
        [|exact K2].
      intros s x s'. apply suppliedParticipantStep_keyed.
    + split; [auto | eauto].
    + intros py Hpy. destruct (P1 py Hpy) as [Hh Hb]. split; auto.
    + intros tx a Hin Ha. apply M3. eapply T2; eauto.
    + intros supplied' q Hs Hq. injection Hs as <-.
      apply (@forEach_supplied_has _ _ _ _ H Hq).
  - apply Ok_inj in H. subst ps. split; [|split; [|split; [|split]]]; auto.
    + split; [auto | eauto].
    + intros py Hpy. destruct (P1 py Hpy) as [Hh Hb]. split; auto.
    + intros supplied q Hs. discriminate Hs.
Qed.

Lemma keyed_entry ps k b :
  keyedByAddress ps -> JsMap.has k ps = true -> hexToBytes k = Ok b ->
  exists p, In p (JsMap.values ps) /\ p_address p = b.
Proof.
  intros Hinv Hhas Hk. unfold JsMap.has in Hhas.
  destruct (JsMap.get k ps) as [p|] eqn:E; [|discriminate Hhas].
  exists p. split; [eapply get_values; exact E|].
  pose proof (Hinv _ _ E) as Hp. rewrite Hk in Hp. apply Ok_inj in Hp. auto.
Qed.

(** X5. Nobody is left out of the derived participants: they hold the
    address bytes of the sender, of the payer when there is one, of the
    address every transaction implies (the beneficiary of a transfer, the
    owner of a minted or burnt asset, the owner of an enlisted or invoked
    logic), and of every supplied participant whose address is
    hexadecimal. *)
Theorem processParticipants_covers (ix : InteractionObject)
    (ps : list ProcessedIxParticipant) :
  processParticipants ix = Ok ps ->
  (exists p, In p ps /\ hexToBytes (sender ix) = Ok (p_address p)) /\
  (forall py, payer ix = Some py ->
     exists p, In p ps /\ hexToBytes py = Ok (p_address p)) /\
  (forall tx a, In tx (transactions ix) -> impliedAddress tx = Some a ->
     exists p, In p ps /\ hexToBytes a = Ok (p_address p)) /\
  (forall supplied q b,
     participants ix = Some supplied -> In q supplied ->
     hexToBytes (participant_address q) = Ok b ->
     exists p, In p ps /\ p_address p = b).
Proof.
  unfold processParticipants. intros H. bind_inv H. apply Ok_inj in H. subst ps.
  rename x into m.
  destruct (participantMap_facts _ E) as [K [[S [bs Hbs]] [P [T Q]]]].
  split; [|split; [|split]].
  - destruct (@keyed_entry m _ bs K S (HexFacts.hexToBytes_trim _ Hbs)) as [p [Hin Hp]].
    exists p. split; [exact Hin | congruence].
  - intros py Hpy. destruct (P py Hpy) as [Hh [bp Hbp]].
    destruct (@keyed_entry m _ bp K Hh (HexFacts.hexToBytes_trim _ Hbp)) as [p [Hin Hp]].
    exists p. split; [exact Hin | congruence].
  - intros tx a Hin Ha. pose proof (T tx a Hin Ha) as Hh. unfold JsMap.has in Hh.
    destruct (JsMap.get a m) as [p|] eqn:Eg; [|discriminate Hh].
    exists p. split; [eapply get_values; exact Eg | apply (K _ _ Eg)].
  - intros supplied q b Hs Hq Hb.
    apply (@keyed_entry m (trimHexPrefix (participant_address q)) b K).
    + eapply Q; eauto.
    + apply HexFacts.hexToBytes_trim. exact Hb.
Qed.

Lemma processParticipants_covers_witness :
  exists ps p,
    processParticipants mixedFundsIx = Ok ps /\
    In p ps /\ hexToBytes "0x0c" = Ok (p_address p).
Proof.
  eassert (H : processParticipants mixedFundsIx = Ok _) by (vm_compute; reflexivity).
  destruct (@processParticipants_covers mixedFundsIx _ H) as [_ [_ [Htx _]]].
  destruct (Htx (transfer "0x0c" "a1" (Num 5)) "0x0c" (or_introl eq_refl) eq_refl)
    as [p [Hin Hp]].
  eexists. exists p. split; [exact H|]. split; [exact Hin | exact Hp].
Defined.

Lemma values_set_inv {V} (m : JsMap.t V) k v x :
  In x (JsMap.values (JsMap.set k v m)) -> x = v \/ In x (JsMap.values m).
Proof.
  unfold JsMap.values. induction m as [|[k0 v0] rest IH]; simpl.
  - intros [<-|[]]. auto.
  - destruct (String.eqb k k0); simpl.
    + intros [<-|H]; auto.
    + intros [<-|H]; auto. destruct (IH H); auto.
Qed.

Lemma participantStep_mutate ps tx ps' :
  Forall (fun p => p_lock_type p = MUTATE_LOCK) (JsMap.values ps) ->
  participantStep ps tx = Ok ps' ->
  Forall (fun p => p_lock_type p = MUTATE_LOCK) (JsMap.values ps').
Proof.
  intros Hall H. unfold participantStep in H. cbv zeta in H.
  destruct (tx_type tx); bind_inv H; try discriminate H;
    apply Ok_inj in H; subst ps'; try exact Hall;
    apply Forall_forall; intros p Hp; apply values_set_inv in Hp;
    (destruct Hp as [->|Hp]; [reflexivity|]);
    rewrite Forall_forall in Hall; auto.
Qed.

(** X6. Every derived participant is locked for mutation unless it was
    supplied: a participant with another lock type carries the lock type and
    the address bytes of a supplied participant. *)
Theorem processParticipants_lock_types (ix : InteractionObject)
    (ps : list ProcessedIxParticipant) (p : ProcessedIxParticipant) :
  processParticipants ix = Ok ps ->
  In p ps ->
  p_lock_type p = MUTATE_LOCK \/
  exists supplied q,
    participants ix = Some supplied /\ In q supplied /\
    participant_lock_type q = p_lock_type p /\
    hexToBytes (participant_address q) = Ok (p_address p).
Proof.
  unfold processParticipants. intros H Hin. bind_inv H. apply Ok_inj in H. subst ps.
  unfold participantMap in E. bind_inv E. rename x0 into b, x1 into ps1, x2 into ps2.
  assert (H1 : Forall (fun p => p_lock_type p = MUTATE_LOCK) (JsMap.values ps1)).
  { destruct (payer ix) as [py|].
    - bind_inv E1. apply Ok_inj in E1. subst ps1.
      apply Forall_forall. intros y Hy. apply values_set_inv in Hy.
      destruct Hy as [->|Hy]; [reflexivity|]. simpl in Hy.
      destruct Hy as [<-|[]]. reflexivity.
    - apply Ok_inj in E1. subst ps1. repeat constructor. }
  assert (H2 : Forall (fun p => p_lock_type p = MUTATE_LOCK) (JsMap.values ps2)).
  { revert E2. apply (@forEach_invariant _ _ participantStep
                        (fun m => Forall (fun p => p_lock_type p = MUTATE_LOCK)
                                    (JsMap.values m))); [|exact H1].
    intros s y s'. apply participantStep_mutate. }
  destruct (participants ix) as [supplied|].
  - assert (H3 : forall y, In y (JsMap.values x) ->
              p_lock_type y = MUTATE_LOCK \/
              exists q, In q supplied /\ participant_lock_type q = p_lock_type y /\
                        hexToBytes (participant_address q) = Ok (p_address y)).
    { revert E. apply (@forEach_invariant_In _ _ suppliedParticipantStep
                         (fun m => forall y, In y (JsMap.values m) ->
                            p_lock_type y = MUTATE_LOCK \/
                            exists q, In q supplied /\
                              participant_lock_type q = p_lock_type y /\
                              hexToBytes (participant_address q) = Ok (p_address y))).
      - intros s q s' Hq Hs Hstep y Hy. unfold suppliedParticipantStep in Hstep.
        cbv zeta in Hstep. destruct (negb _).
        + bind_inv Hstep. apply Ok_inj in Hstep. subst s'.
          apply values_set_inv in Hy. destruct Hy as [->|Hy]; [|auto].
          right. exists q. simpl. auto.
        + apply Ok_inj in Hstep. subst s'. auto.
      - intros y Hy. left. rewrite Forall_forall in H2. auto. }
    destruct (H3 p Hin) as [Hm|[q [Hq [Hl Hb]]]]; [auto|].
    right. exists supplied, q. auto.
  - apply Ok_inj in E. subst x. left. rewrite Forall_forall in H2. auto.
Qed.

Lemma processParticipants_lock_types_witness :
  exists ps supplied q,
    processParticipants mixedFundsIx = Ok ps /\
    participants mixedFundsIx = Some supplied /\ In q supplied /\
    participant_lock_type q = READ_LOCK /\
    hexToBytes (participant_address q) = Ok [xdd].
Proof.
  eassert (H : processParticipants mixedFundsIx = Ok _) by (vm_compute; reflexivity).
  destruct (@processParticipants_lock_types mixedFundsIx _
              {| p_address := [xdd]; p_lock_type := READ_LOCK |} H)
    as [Hm|[supplied [q [Hs [Hq [Hl Hb]]]]]].
  - simpl. intuition.
  - discriminate Hm.
  - eexists. exists supplied, q. split; [exact H|]. auto.
Defined.

(** ** Transactions *)

(** X7. [processTransactions] keeps the transactions in number, order and
    type, and succeeds only when every payload is there: each processed
    payload is what [serializePayload] returned for the payload of the
    transaction in that place. *)
Theorem processTransactions_pointwise
    (serializePayload : TxType -> TxPayload -> result (list byte))
    (txs : list IxTransaction) (out : list ProcessedIxTransaction) :
  processTransactions serializePayload txs = Ok out ->
  Forall2 (fun tx o =>
             p_type o = tx_type tx /\
             exists p, tx_payload tx = Some p /\
                       serializePayload (tx_type tx) p = Ok (p_payload o))
          txs out.
Proof.
  unfold processTransactions. revert out.
  induction txs as [|tx rest IH]; intros out H; simpl in H.
  - apply Ok_inj in H. subst. constructor.
  - bind_inv H. apply Ok_inj in H. subst out. constructor; [|apply IH; exact E0].
    unfold processTransaction in E. destruct (tx_payload tx) as [p|]; [|discriminate E].
    bind_inv E. apply Ok_inj in E. subst x. simpl. eauto.
Qed.

Lemma processTransactions_pointwise_witness :
  exists out,
    processTransactions (fun _ _ => Ok [x2a]) (transactions mixedFundsIx) = Ok out /\
    map p_type out = map tx_type (transactions mixedFundsIx).
Proof.
  eassert (H : processTransactions (fun _ _ => Ok [x2a]) (transactions mixedFundsIx) = Ok _)
    by (vm_compute; reflexivity).
  pose proof (@processTransactions_pointwise _ _ _ H) as HF.
  eexists. split; [exact H|].
  clear H. induction HF as [|tx o txs out [Ht _] _ IH]; [reflexivity|].
  simpl. rewrite Ht, IH. reflexivity.
Defined.

Lemma mapM_app_throw {X Y} (f : X -> result Y) (pre post : list X) (x : X)
    (ys : list Y) (e : error) :
  mapM f pre = Ok ys -> f x = Throw e -> mapM f (pre ++ x :: post) = Throw e.
Proof.
  revert ys. induction pre as [|y pre IH]; intros ys Hpre Hx; simpl in *.
  - rewrite Hx. reflexivity.
  - bind_inv Hpre. rewrite E. cbn [bind]. rewrite (IH _ E0 Hx). reflexivity.
Qed.

(** X8. When the payload check is the first thing to fail (the sender
    converts, the funds consolidate, the transactions before the one
    lacking its payload serialize) [serializeIxObject] raises its wrapping
    error around that of [processIxObject] around "Payload is missing!" with
    code [MISSING_ARGUMENT]. *)
Theorem serializeIxObject_missing_payload
    (serializePayload : TxType -> TxPayload -> result (list byte))
    (polorizeIxObject : ProcessedIxObject -> result (list byte))
    (ix : InteractionObject) (pre post : list IxTransaction) (tx : IxTransaction)
    (b : list byte) (fs : list ProcessedIxAssetFund) (out : list ProcessedIxTransaction) :
  transactions ix = pre ++ tx :: post ->
  tx_payload tx = None ->
  hexToBytes (sender ix) = Ok b ->
  processFunds ix = Ok fs ->
  processTransactions serializePayload pre = Ok out ->
  serializeIxObject serializePayload polorizeIxObject ix =
    Throw (CustomError "Failed to serialize interaction object" UNKNOWN_ERROR
             (Some (CustomError "Failed to process interaction object" UNKNOWN_ERROR
                      (Some (CustomError "Payload is missing!" MISSING_ARGUMENT None))))).
Proof.
  intros Htxs Hnone Hb Hfs Hpre.
  unfold serializeIxObject, processIxObject. rewrite Hb. cbn [bind].
  assert (Hz : exists z, hexToBytes ZERO_ADDRESS = Ok z) by (eexists; reflexivity).
  destruct Hz as [z Hz]. rewrite Hz. cbn [bind]. rewrite Hfs. cbn [bind].
  unfold processTransactions in *. rewrite Htxs.
  rewrite (@mapM_app_throw _ _ _ pre post tx out
             (CustomError "Payload is missing!" MISSING_ARGUMENT None) Hpre).
  - reflexivity.
  - unfold processTransaction. rewrite Hnone. reflexivity.
Qed.

Lemma serializeIxObject_missing_payload_witness :
  serializeIxObject (fun _ _ => Ok [x2a]) (fun _ => Ok []) missingPayloadIx =
    Throw (CustomError "Failed to serialize interaction object" UNKNOWN_ERROR
             (Some (CustomError "Failed to process interaction object" UNKNOWN_ERROR
                      (Some (CustomError "Payload is missing!" MISSING_ARGUMENT None))))).
Proof.
  eapply (@serializeIxObject_missing_payload
            (fun _ _ => Ok [x2a]) (fun _ => Ok []) missingPayloadIx
            [mint "0x00000000ee" (Num 1)] [transfer "0x0c" "a1" (Num 5)]
            {| tx_type := LOGIC_INVOKE; tx_payload := None |});
    reflexivity.
Defined.

End SerializerMore.

(* ================================================================== *)
(** * More on the manifest coder *)

Module ManifestMore.
Import Examples MoreExamples ManifestFacts.

#[local] Arguments withField : simpl never.
#[local] Arguments fieldSchema : simpl never.
#[local] Arguments reconstructSchema : simpl never.

(** ** parseCalldata *)

Lemma parseMap_kind self (entries : list (value * value)) :
  forall schema acc map schema',
    parseMap self schema entries acc = Ok (map, schema') ->
    kindOf schema' = kindOf schema.
Proof.
  induction entries as [|[k v] rest IH]; intros schema acc map schema' H; simpl in H.
  - apply Ok_inj in H. injection H as _ <-. reflexivity.
  - steps H. rewrite (IH _ _ _ _ H), !withField_kind. reflexivity.
Qed.

(** X9. [parseCalldata] changes the kind of no schema node but a struct
    node met with [updateType] set, which becomes a document node without
    fields. *)
Theorem parseCalldata_kind
    (documentEncode : value -> Schema -> result Document)
    (schema : Schema) (arg : value) (updateType : bool) (v : value) (schema' : Schema) :
  parseCalldata documentEncode schema arg updateType = Ok (v, schema') ->
  kindOf schema' = kindOf schema \/
  (kindOf schema = KStruct /\ updateType = true /\ schema' = Node KDocument None).
Proof.
  intros H. destruct schema as [k fs]. destruct k.
  1-5, 9: left; destruct arg; simpl in H; steps H;
    try discriminate H; apply Ok_inj in H; injection H as _ <-; reflexivity.
  - (* array *)
    left. destruct arg; simpl in H; steps H;
      repeat match type of H with
             | context [if ?c then _ else _] => destruct c
             end;
      steps H; try discriminate H; apply Ok_inj in H; injection H as _ <-;
      try reflexivity; apply withField_kind.
  - (* map *)
    left. destruct arg; simpl in H; steps H;
      repeat match type of H with
             | context [if ?c then _ else _] => destruct c
             end;
      steps H; try discriminate H; apply Ok_inj in H; injection H as _ <-;
      try reflexivity.
    apply (parseMap_kind _ _ _ _ E1).
  - (* struct *)
    destruct (struct_node_after _ _ _ _ H) as [Hset Hclear].
    destruct updateType.
    + right. auto.
    + left. destruct (Hclear eq_refl) as [fs0 [fs' [_ [-> _]]]]. reflexivity.
Qed.

Lemma parseCalldata_kind_witness :
  exists v schema',
    parseCalldata RefCodec.documentEncode personSchema personArg false = Ok (v, schema') /\
    kindOf schema' = KStruct.
Proof.
  destruct (parseCalldata RefCodec.documentEncode personSchema personArg false)
    as [[v schema']|e] eqn:E.
  - exists v, schema'. split; [reflexivity|].
    destruct (@parseCalldata_kind _ _ _ _ _ _ E) as [H|[_ [H _]]];
      [exact H | discriminate H].
  - vm_compute in E. discriminate E.
Defined.

Lemma parseArray_length self (items : list value) :
  forall schema items' schema',
    parseArray self schema items = Ok (items', schema') ->
    List.length items' = List.length items.
Proof.
  induction items as [|v rest IH]; intros schema items' schema' H; simpl in H.
  - apply Ok_inj in H. injection H as <- _. reflexivity.
  - steps H. apply Ok_inj in H. injection H as <- _. simpl. f_equal. eauto.
Qed.

Lemma mapSet_length (k v : value) (m : list (value * value)) :
  List.length (mapSet k v m) <= S (List.length m).
Proof.
  induction m as [|[k0 v0] m IH]; simpl; [lia|].
  destruct (sameKey k k0); simpl; lia.
Qed.

Lemma parseMap_length self (entries : list (value * value)) :
  forall schema acc map schema',
    parseMap self schema entries acc = Ok (map, schema') ->
    List.length map <= List.length acc + List.length entries.
Proof.
  induction entries as [|[k v] rest IH]; intros schema acc map schema' H; simpl in H.
  - apply Ok_inj in H. injection H as <- _. lia.
  - steps H. apply IH in H. pose proof (mapSet_length v0 v1 acc). simpl. lia.
Qed.

(** X10. Normalisation keeps the shape of containers: under an array node
    an array comes back as an array of the same length, under a map node a
    [Map] comes back as a [Map] with no more entries than it had. *)
Theorem parseCalldata_container_shape
    (documentEncode : value -> Schema -> result Document)
    (fields : option (list (string * Schema))) (updateType : bool)
    (v : value) (schema' : Schema) :
  (forall items,
     parseCalldata documentEncode (Node KArray fields) (VArray items) updateType
       = Ok (v, schema') ->
     exists items', v = VArray items' /\ List.length items' = List.length items) /\
  (forall entries,
     parseCalldata documentEncode (Node KMap fields) (VMap entries) updateType
       = Ok (v, schema') ->
     exists map, v = VMap map /\ List.length map <= List.length entries).
Proof.
  split.
  - intros items H. simpl in H. steps H. destruct (parsable (kindOf x)).
    + steps H. apply Ok_inj in H. injection H as <- _.
      exists l. split; [reflexivity|]. eapply parseArray_length. exact E0.
    + apply Ok_inj in H. injection H as <- _. eauto.
  - intros entries H. simpl in H. steps H. destruct x0.
    + steps H. apply Ok_inj in H. injection H as <- _.
      exists l. split; [reflexivity|]. apply parseMap_length in E1. simpl in E1. lia.
    + apply Ok_inj in H. injection H as <- _. exists entries. auto.
Qed.

(** X11. The schema rewrite concerns struct nodes only: under a node with
    no struct at or below it, [parseCalldata] returns the node as it found
    it, whatever the value and the flag. *)
Theorem parseCalldata_struct_free
    (documentEncode : value -> Schema -> result Document)
    (schema : Schema) (arg : value) (updateType : bool) (v : value) (schema' : Schema) :
  stable schema true = true ->
  parseCalldata documentEncode schema arg updateType = Ok (v, schema') ->
  schema' = schema.
Proof.
  intros Hs H. apply (@parseCalldata_framed documentEncode arg schema updateType v schema');
    [|exact H].
  apply stable_flag. exact Hs.
Qed.

Lemma parseCalldata_container_shape_witness :
  exists items' schema',
    parseCalldata RefCodec.documentEncode bytesArraySchema bytesArrayArg true
      = Ok (VArray items', schema') /\
    List.length items' = 3.
Proof.
  destruct (parseCalldata RefCodec.documentEncode bytesArraySchema bytesArrayArg true)
    as [[v schema']|e] eqn:E.
  - destruct (proj1 (@parseCalldata_container_shape RefCodec.documentEncode _ true v schema')
                _ E) as [items' [-> Hlen]].
    exists items', schema'. split; [reflexivity | exact Hlen].
  - vm_compute in E. discriminate E.
Defined.

Lemma parseCalldata_struct_free_witness :
  exists v,
    parseCalldata RefCodec.documentEncode bytesArraySchema bytesArrayArg true
      = Ok (v, bytesArraySchema).
Proof.
  destruct (parseCalldata RefCodec.documentEncode bytesArraySchema bytesArrayArg true)
    as [[v schema']|e] eqn:E.
  - exists v.
    rewrite (@parseCalldata_struct_free RefCodec.documentEncode bytesArraySchema
               bytesArrayArg true v schema' eq_refl E).
    reflexivity.
  - vm_compute in E. discriminate E.
Defined.

(** ** encodeArguments *)

Section Encode.
Variable documentEncode : value -> Schema -> result Document.
Variable depolorize : list byte -> Schema -> result value.
Variable parseDataType : string -> result Schema.
Variable getRoutineElement : string -> result Routine.

Lemma forEach_ext {S X} (f g : S -> X -> result S) (xs : list X) :
  (forall s x, In x xs -> f s x = g s x) ->
  forall s, forEach f xs s = forEach g xs s.
Proof.
  induction xs as [|x rest IH]; intros Hfg s; [reflexivity|].
  simpl. rewrite (Hfg s x (or_introl eq_refl)).
  destruct (g s x); simpl; [|reflexivity].
  apply IH. intros s' y Hy. apply Hfg. right. exact Hy.
Qed.

(** X12. Arguments beyond the slots of the accepted fields are ignored:
    when every slot lies within [args], appending further arguments changes
    neither the calldata nor the failure. *)
Theorem encodeArguments_ignores_extra_arguments
    (routine : Routine) (fields : list Field) (args extra : list value) :
  accepts routine = Some fields ->
  (forall f, In f fields -> slot f < List.length args) ->
  encodeArguments documentEncode parseDataType getRoutineElement
    (ByObject routine) (args ++ extra)
  = encodeArguments documentEncode parseDataType getRoutineElement
      (ByObject routine) args.
Proof.
  intros Hacc Hslots. unfold encodeArguments. cbn [routineFields bind]. rewrite Hacc.
  destruct (parseFields parseDataType (orEmpty (Some fields))) as [schema|e];
    [|reflexivity].
  cbn [bind].
  rewrite (@forEach_ext _ _ (encodeStep documentEncode (args ++ extra))
             (encodeStep documentEncode args) fields); [reflexivity|].
  intros [acc s] f Hf. unfold encodeStep, argOf.
  rewrite app_nth1 by (apply Hslots; exact Hf). reflexivity.
Qed.

(** X13. When [encodeArguments] succeeds the routine has an [accepts] list,
    and the calldata is the "0x" marker followed by the hex text of the
    bytes of one particular document: the one the writer makes, under the
    schema as normalisation left it, of the object that holds under each
    field's label what [parseCalldata] returned for the argument in the
    field's slot.  The calldata converts back to exactly those bytes. *)
Theorem encodeArguments_hex
    (routine : RoutineRef) (args : list value) (calldata : string) :
  encodeArguments documentEncode parseDataType getRoutineElement routine args
    = Ok calldata ->
  exists fields schema ns schema' doc,
    routineFields getRoutineElement routine accepts = Ok (Some fields) /\
    parseFields parseDataType fields = Ok schema /\
    normalisedFrom documentEncode args schema fields ns schema' /\
    documentEncode (VObject (storeAll fields ns [])) schema' = Ok doc /\
    calldata = ("0x" ++ bytesToHex (bytes doc))%string /\
    hexToBytes calldata = Ok (bytes doc).
Proof.
  unfold encodeArguments. intros H. steps H.
  destruct x as [fs|]; [|discriminate H]. steps H. apply Ok_inj in H. subst calldata.
  destruct (@encode_loop documentEncode args fs _ _ _ _ E1) as [ns [Hns ->]].
  exists fs, x0, ns, s, x. split; [exact E|]. split; [exact E0|].
  split; [exact Hns|]. split; [exact E2|]. split; [reflexivity|].
  apply HexFacts.hexToBytes_bytesToHex.
Qed.

(** ** decodeOutput, decodeEventOutput, decodeException *)

Lemma nonEmptyData_hex (b : byte) (bs : list byte) :
  nonEmptyData ("0x" ++ bytesToHex (b :: bs)) = true.
Proof. reflexivity. Qed.

(** X14. [decodeOutput] answers [null] without consulting the reader when
    the output is empty or "0x", or when the routine's [returns] is absent
    or empty.  Otherwise, with a lawful writer and reader, it reads back a
    value written under the schema of [returns], unless the wire written is
    empty, which reads back as [null]. *)
Theorem decodeOutput_null_or_roundtrip (routine : Routine) (output : string) :
  (output = "" \/ output = "0x" \/ returns routine = None \/ returns routine = Some [] ->
   decodeOutput depolorize parseDataType getRoutineElement (ByObject routine) output
     = Ok VNull) /\
  (forall fields schema v doc,
     lawful documentEncode depolorize ->
     returns routine = Some fields ->
     fields <> [] ->
     parseFields parseDataType fields = Ok schema ->
     documentEncode v schema = Ok doc ->
     decodeOutput depolorize parseDataType getRoutineElement (ByObject routine)
       ("0x" ++ bytesToHex (bytes doc))
     = Ok (match bytes doc with [] => VNull | _ => v end)).
Proof.
  unfold decodeOutput. cbn [routineFields bind]. split.
  - intros [-> | [-> | [-> | ->]]]; try reflexivity;
      destruct (returns routine) as [[|f fs]|]; reflexivity.
  - intros fields schema v doc Hlaw Hret Hne Hschema Hdoc. rewrite Hret.
    destruct fields as [|f fs]; [contradiction|].
    destruct (bytes doc) as [|b bs] eqn:Eb; [reflexivity|].
    rewrite nonEmptyData_hex, Hschema. cbn [bind].
    rewrite HexFacts.hexToBytes_bytesToHex. cbn [bind].
    rewrite <- Eb. apply Hlaw. exact Hdoc.
Qed.
End Encode.

Lemma encodeArguments_ignores_extra_arguments_witness :
  encodeArguments RefCodec.documentEncode RefCodec.parseDataType RefCodec.getRoutineElement
    (ByObject seedRoutine) ([VString "ab"; VBytes [x01]] ++ [VNumber 7; VNull])
  = encodeArguments RefCodec.documentEncode RefCodec.parseDataType RefCodec.getRoutineElement
      (ByObject seedRoutine) [VString "ab"; VBytes [x01]].
Proof.
  apply (@encodeArguments_ignores_extra_arguments
           RefCodec.documentEncode RefCodec.parseDataType RefCodec.getRoutineElement
           seedRoutine seedFields); [reflexivity|].
  intros f [<-|[<-|[]]]; simpl; lia.
Defined.

Lemma encodeArguments_hex_witness :
  exists calldata doc,
    encodeArguments RefCodec.documentEncode RefCodec.parseDataType RefCodec.getRoutineElement
      (ByObject seedRoutine) [VString "0xab"; VString "0x01"] = Ok calldata /\
    RefCodec.documentEncode (VObject [("name", VString "ab"); ("data", VBytes [x01])])
      (Node KStruct (Some [("name", Node KString None); ("data", Node KBytes None)]))
      = Ok doc /\
    hexToBytes calldata = Ok (bytes doc).
Proof.
  eassert (H : encodeArguments RefCodec.documentEncode RefCodec.parseDataType
                 RefCodec.getRoutineElement (ByObject seedRoutine)
                 [VString "0xab"; VString "0x01"] = Ok _) by (vm_compute; reflexivity).
  destruct (@encodeArguments_hex _ _ _ _ _ _ H)
    as [fields [schema [ns [schema' [doc [Hf [Hs [Hns [Hdoc [_ Hhex]]]]]]]]]].
  eexists. exists doc. split; [exact H|]. split; [|exact Hhex].
  cbn [routineFields] in Hf. apply Ok_inj in Hf. injection Hf as <-.
  vm_compute in Hs. apply Ok_inj in Hs. subst schema.
  destruct ns as [|n0 [|n1 [|n2 ns]]]; simpl in Hns; try contradiction;
    try (destruct Hns as [? [? [_ [_ []]]]]; fail).
  - destruct Hns as [c [c' [Hc [Hp Hrest]]]].
    vm_compute in Hc. apply Ok_inj in Hc. subst c.
    vm_compute in Hp. apply Ok_inj in Hp. injection Hp as <- <-.
    destruct Hrest as [d [d' [Hd [Hq Hend]]]].
    vm_compute in Hd. apply Ok_inj in Hd. subst d.
    vm_compute in Hq. apply Ok_inj in Hq. injection Hq as <- <-.
    vm_compute in Hend. subst schema'. exact Hdoc.
  - destruct Hns as [c [c' [_ [_ [d [d' [_ [_ Hbad]]]]]]]]. contradiction.
Defined.

Lemma decodeOutput_null_or_roundtrip_witness :
  decodeOutput RefCodec.depolorize RefCodec.parseDataType RefCodec.getRoutineElement
    (ByObject pingRoutine) "0x" = Ok VNull /\
  decodeOutput RefCodec.depolorize RefCodec.parseDataType RefCodec.getRoutineElement
    (ByObject pingRoutine)
    ("0x" ++ bytesToHex (RefCodec.ser (VObject [("ok", VBool true)])))
    = Ok (VObject [("ok", VBool true)]).
Proof.
  destruct (@decodeOutput_null_or_roundtrip
              RefCodec.documentEncode RefCodec.depolorize RefCodec.parseDataType
              RefCodec.getRoutineElement pingRoutine "0x") as [Hnull _].
  destruct (@decodeOutput_null_or_roundtrip
              RefCodec.documentEncode RefCodec.depolorize RefCodec.parseDataType
              RefCodec.getRoutineElement pingRoutine "0x") as [_ Hrt].
  split.
  - apply Hnull. right. left. reflexivity.
  - exact (Hrt [ {| label := "ok"; type := "bool"; slot := 0 |} ]
               (Node KStruct (Some [("ok", Node KBoolean None)]))
               (VObject [("ok", VBool true)])
               {| getData := RefCodec.rawData (VObject [("ok", VBool true)]);
                  bytes := RefCodec.ser (VObject [("ok", VBool true)]) |}
               refCodec_lawful eq_refl ltac:(discriminate) eq_refl eq_refl).
Defined.

Section Events.
Variable documentEncode : value -> Schema -> result Document.
Variable depolorize : list byte -> Schema -> result value.
Variable parseDataType : string -> result Schema.
Variable getEventElement : string -> option EventData.
Variable builtInLogEventSchema : Schema.

(** X16. With a lawful writer and reader, [decodeEventOutput] reads back
    the log data of an event of the manifest written under the schema of
    the event's fields, unless the wire written is empty, which reads back
    as [null]; and it reads back the log data of the built-in log event
    written under the fixed log schema. *)
Theorem decodeEventOutput_roundtrip (event : string) (element : EventData)
    (schema : Schema) (v : value) (doc : Document) :
  lawful documentEncode depolorize ->
  (String.eqb event "builtin.Log" = false ->
   getEventElement event = Some element ->
   parseFields parseDataType (event_fields element) = Ok schema ->
   documentEncode v schema = Ok doc ->
   decodeEventOutput depolorize parseDataType getEventElement builtInLogEventSchema
     event ("0x" ++ bytesToHex (bytes doc))
   = Ok (match bytes doc with [] => VNull | _ => v end)) /\
  (documentEncode v builtInLogEventSchema = Ok doc ->
   decodeEventOutput depolorize parseDataType getEventElement builtInLogEventSchema
     "builtin.Log" ("0x" ++ bytesToHex (bytes doc))
   = Ok v).
Proof.
  intros Hlaw. split.
  - intros Hne Hel Hschema Hdoc. unfold decodeEventOutput. rewrite Hne, Hel.
    destruct (bytes doc) as [|b bs] eqn:Eb; [reflexivity|].
    rewrite nonEmptyData_hex, Hschema. cbn [bind].
    rewrite HexFacts.hexToBytes_bytesToHex. cbn [bind].
    rewrite <- Eb. apply Hlaw. exact Hdoc.
  - intros Hdoc. unfold decodeEventOutput. cbn [String.eqb].
    change (String.eqb "builtin.Log" "builtin.Log") with true. cbn iota.
    rewrite HexFacts.hexToBytes_bytesToHex. cbn [bind]. apply Hlaw. exact Hdoc.
Qed.

(** X17. [decodeException] answers [null] for the empty string and for
    "0x"; with a lawful writer and reader it reads back an exception
    written under the exception schema, unless the wire written is empty,
    which reads back as [null]. *)
Theorem decodeException_null_or_roundtrip (PISA_EXCEPTION_SCHEMA : Schema) :
  decodeException depolorize PISA_EXCEPTION_SCHEMA "" = Ok VNull /\
  decodeException depolorize PISA_EXCEPTION_SCHEMA "0x" = Ok VNull /\
  (forall v doc,
     lawful documentEncode depolorize ->
     documentEncode v PISA_EXCEPTION_SCHEMA = Ok doc ->
     decodeException depolorize PISA_EXCEPTION_SCHEMA ("0x" ++ bytesToHex (bytes doc))
     = Ok (match bytes doc with [] => VNull | _ => v end)).
Proof.
  split; [reflexivity|]. split; [reflexivity|].
  intros v doc Hlaw Hdoc. unfold decodeException.
  destruct (bytes doc) as [|b bs] eqn:Eb; [reflexivity|].
  rewrite nonEmptyData_hex. rewrite HexFacts.hexToBytes_bytesToHex. cbn [bind].
  rewrite <- Eb. apply Hlaw. exact Hdoc.
Qed.
End Events.

Lemma decodeEventOutput_roundtrip_witness :
  decodeEventOutput RefCodec.depolorize RefCodec.parseDataType RefCodec.getEventElement
    RefCodec.builtInLogEventSchema "Transfer"
    ("0x" ++ bytesToHex (RefCodec.ser (VObject [("to", VString "ab")])))
  = Ok (VObject [("to", VString "ab")]).
Proof.
  exact (proj1 (@decodeEventOutput_roundtrip
                  RefCodec.documentEncode RefCodec.depolorize RefCodec.parseDataType
                  RefCodec.getEventElement RefCodec.builtInLogEventSchema "Transfer"
                  {| event_name := "Transfer";
                     event_fields := [ {| label := "to"; type := "string"; slot := 0 |} ] |}
                  (Node KStruct (Some [("to", Node KString None)]))
                  (VObject [("to", VString "ab")])
                  {| getData := RefCodec.rawData (VObject [("to", VString "ab")]);
                     bytes := RefCodec.ser (VObject [("to", VString "ab")]) |}
                  refCodec_lawful)
               eq_refl eq_refl eq_refl eq_refl).
Defined.

Lemma decodeException_null_or_roundtrip_witness :
  decodeException RefCodec.depolorize RefWriter.anySchema
    ("0x" ++ bytesToHex (RefCodec.ser (VObject [("class", VString "builtin.panic")])))
  = Ok (VObject [("class", VString "builtin.panic")]).
Proof.
  exact (proj2 (proj2 (@decodeException_null_or_roundtrip
                         RefCodec.documentEncode RefCodec.depolorize RefWriter.anySchema))
               (VObject [("class", VString "builtin.panic")])
               {| getData := RefCodec.rawData (VObject [("class", VString "builtin.panic")]);
                  bytes := RefCodec.ser (VObject [("class", VString "builtin.panic")]) |}
               refCodec_lawful eq_refl).
Defined.

(** ** encodeManifest *)

Section Manifests.
Variable Polorizer : Type.
Variable newPolorizer : Polorizer.
Variable polorizeInteger : numeric -> Polorizer -> result Polorizer.
Variable polorizeString : string -> Polorizer -> result Polorizer.
Variable polorize : value -> Schema -> Polorizer -> result Polorizer.
Variable polorizePacked : Polorizer -> Polorizer -> result Polorizer.
Variable polorizerBytes : Polorizer -> list byte.
Variable ENGINE DEPS CONSTANT TYPEDEF CLASS METHOD ROUTINE EVENT STATE : Schema.

#[local] Abbreviation elementSchema' :=
  (elementSchema CONSTANT TYPEDEF CLASS METHOD ROUTINE EVENT STATE).
#[local] Abbreviation encodeElement' :=
  (encodeElement newPolorizer polorizeInteger polorizeString polorize polorizePacked
     DEPS CONSTANT TYPEDEF CLASS METHOD ROUTINE EVENT STATE).
#[local] Abbreviation encodeManifest' :=
  (encodeManifest newPolorizer polorizeInteger polorizeString polorize polorizePacked
     polorizerBytes ENGINE DEPS CONSTANT TYPEDEF CLASS METHOD ROUTINE EVENT STATE).

Lemma elementSchema_cases (kind : string) :
  if isSupportedKind kind
  then exists s, elementSchema' kind = Ok s
  else elementSchema' kind =
         Throw (CustomError ("Unsupported kind: " ++ kind) UNSUPPORTED_OPERATION None).
Proof.
  unfold isSupportedKind, supportedKinds, elementSchema. cbn [existsb].
  repeat match goal with
         | |- context [String.eqb kind ?lit] => destruct (String.eqb kind lit); simpl; eauto
         end.
Qed.

Lemma encodeElement_supported (elements elements' : Polorizer) (value : Element) :
  encodeElement' elements value = Ok elements' -> isSupportedKind (el_kind value) = true.
Proof.
  unfold encodeElement. intros H. bind_inv H.
  pose proof (elementSchema_cases (el_kind value)) as Hc.
  destruct (isSupportedKind (el_kind value)); [reflexivity|]. congruence.
Qed.

Lemma forEach_encodeElement_supported (els : list Element) :
  forall p p', forEach encodeElement' els p = Ok p' ->
  Forall (fun e => isSupportedKind (el_kind e) = true) els.
Proof.
  induction els as [|e rest IH]; intros p p' H; [constructor|].
  simpl in H. bind_inv H. constructor; [eapply encodeElement_supported; eauto | eauto].
Qed.

(** X18. [encodeManifest] succeeds only on manifests whose elements all have
    one of the seven kinds it has a case for.  What it returns is then the
    "0x" marker followed by the hex text of the bytes held by the writer
    that took, in this order, the syntax, the engine and, when the manifest
    has elements, the packed writer of the elements; it converts back to
    exactly those bytes. *)
Theorem encodeManifest_success (manifest : Manifest) (encoded : string) :
  encodeManifest' manifest = Ok encoded ->
  (forall els, m_elements manifest = Some els ->
     Forall (fun e => In (el_kind e) supportedKinds) els) /\
  exists p1 p2 p,
    polorizeInteger (m_syntax manifest) newPolorizer = Ok p1 /\
    polorize (m_engine manifest) ENGINE p1 = Ok p2 /\
    match m_elements manifest with
    | Some els =>
        exists elements,
          forEach encodeElement' els newPolorizer = Ok elements /\
          polorizePacked elements p2 = Ok p
    | None => p = p2
    end /\
    encoded = ("0x" ++ bytesToHex (polorizerBytes p))%string /\
    hexToBytes encoded = Ok (polorizerBytes p).
Proof.
  unfold encodeManifest. intros H. bind_inv H. apply Ok_inj in H. subst encoded. split.
  - intros els Hels. rewrite Hels in E1. bind_inv E1.
    pose proof (forEach_encodeElement_supported _ _ E2) as Hall.
    eapply Forall_impl; [|exact Hall]. intros e He. unfold isSupportedKind in He.
    apply existsb_exists in He. destruct He as [k [Hk Heq]].
    apply String.eqb_eq in Heq. subst. exact Hk.
  - exists x, x0, x1. split; [exact E|]. split; [exact E0|]. split.
    + destruct (m_elements manifest) as [els|].
      * bind_inv E1. exists x2. split; assumption.
      * apply Ok_inj in E1. symmetry. exact E1.
    + split; [reflexivity|]. apply HexFacts.hexToBytes_bytesToHex.
Qed.

Hypothesis integerTotal : forall n p, exists p', polorizeInteger n p = Ok p'.
Hypothesis stringTotal : forall s p, exists p', polorizeString s p = Ok p'.
Hypothesis polorizeTotal : forall v s p, exists p', polorize v s p = Ok p'.
Hypothesis packedTotal : forall c p, exists p', polorizePacked c p = Ok p'.

Lemma encodeElement_total (elements : Polorizer) (value : Element) :
  if isSupportedKind (el_kind value)
  then exists elements', encodeElement' elements value = Ok elements'
  else encodeElement' elements value =
         Throw (CustomError ("Unsupported kind: " ++ el_kind value)
                  UNSUPPORTED_OPERATION None).
Proof.
  unfold encodeElement.
  destruct (integerTotal (el_ptr value) newPolorizer) as [p1 ->]. cbn [bind].
  destruct (polorizeTotal (el_deps value) DEPS p1) as [p2 ->]. cbn [bind].
  destruct (stringTotal (el_kind value) p2) as [p3 ->]. cbn [bind].
  pose proof (elementSchema_cases (el_kind value)) as Hc.
  destruct (isSupportedKind (el_kind value)).
  - destruct Hc as [s ->]. cbn [bind].
    destruct (polorizeTotal (el_data value) s p3) as [p4 ->]. cbn [bind].
    apply packedTotal.
  - rewrite Hc. reflexivity.
Qed.

Lemma forEach_encodeElement_total (els : list Element) :
  forall p,
    match find (fun e => negb (isSupportedKind (el_kind e))) els with
    | Some e =>
        forEach encodeElement' els p =
          Throw (CustomError ("Unsupported kind: " ++ el_kind e) UNSUPPORTED_OPERATION None)
    | None => exists p', forEach encodeElement' els p = Ok p'
    end.
Proof.
  induction els as [|e rest IH]; intros p; [simpl; eauto|].
  cbn [find forEach]. pose proof (encodeElement_total p e) as He.
  destruct (isSupportedKind (el_kind e)); cbn [negb].
  - destruct He as [p1 ->]. cbn [bind]. apply IH.
  - rewrite He. reflexivity.
Qed.

(** X19. With a writer that takes every write, [encodeManifest] fails
    exactly when some element has a kind outside the seven, raising
    "Unsupported kind: ..." for the first such element with code
    [UNSUPPORTED_OPERATION]; a manifest without [elements] is always
    encoded. *)
Theorem encodeManifest_total_writer (manifest : Manifest) :
  match m_elements manifest with
  | Some els =>
      match find (fun e => negb (isSupportedKind (el_kind e))) els with
      | Some e =>
          encodeManifest' manifest =
            Throw (CustomError ("Unsupported kind: " ++ el_kind e)
                     UNSUPPORTED_OPERATION None)
      | None => exists encoded, encodeManifest' manifest = Ok encoded
      end
  | None => exists encoded, encodeManifest' manifest = Ok encoded
  end.
Proof.
  unfold encodeManifest.
  destruct (integerTotal (m_syntax manifest) newPolorizer) as [p1 ->]. cbn [bind].
  destruct (polorizeTotal (m_engine manifest) ENGINE p1) as [p2 ->]. cbn [bind].
  destruct (m_elements manifest) as [els|]; [|cbn [bind]; eauto].
  pose proof (forEach_encodeElement_total els newPolorizer) as Hels.
  destruct (find (fun e => negb (isSupportedKind (el_kind e))) els) as [e|].
  - rewrite Hels. reflexivity.
  - destruct Hels as [p3 ->]. cbn [bind].
    destruct (packedTotal p3 p2) as [p4 ->]. cbn [bind]. eauto.
Qed.
End Manifests.

Lemma encodeManifest_success_witness :
  exists encoded packed,
    RefWriter.encode goodManifest = Ok encoded /\
    hexToBytes encoded
    = Ok ((RefCodec.ser (VNumber 1) ++ RefCodec.ser (VObject [("kind", VString "PISA")]))
          ++ RefCodec.ser (VBytes packed)).
Proof.
  eassert (H : RefWriter.encode goodManifest = Ok _) by (vm_compute; reflexivity).
  destruct (@encodeManifest_success _ _ _ _ _ _ _ _ _ _ _ _ _ _ _ _ _ _ H)
    as [_ [p1 [p2 [p [H1 [H2 [H3 [_ Hhex]]]]]]]].
  cbn [m_elements goodManifest] in H3. destruct H3 as [elements [_ H3]].
  unfold RefWriter.polorizeInteger, RefWriter.newPolorizer in H1.
  apply Ok_inj in H1. subst p1.
  unfold RefWriter.polorize in H2. apply Ok_inj in H2. subst p2.
  unfold RefWriter.polorizePacked in H3. apply Ok_inj in H3. subst p.
  eexists. exists elements. split; [exact H | exact Hhex].
Defined.

Lemma encodeManifest_total_writer_witness :
  RefWriter.encode badManifest =
    Throw (CustomError "Unsupported kind: asset" UNSUPPORTED_OPERATION None).
Proof.
  exact (@encodeManifest_total_writer
           RefWriter.Polorizer RefWriter.newPolorizer RefWriter.polorizeInteger
           RefWriter.polorizeString RefWriter.polorize RefWriter.polorizePacked
           RefWriter.polorizerBytes
           RefWriter.anySchema RefWriter.anySchema RefWriter.anySchema RefWriter.anySchema
           RefWriter.anySchema RefWriter.anySchema RefWriter.anySchema RefWriter.anySchema
           RefWriter.anySchema
           (fun n p => ex_intro _ _ eq_refl) (fun s p => ex_intro _ _ eq_refl)
           (fun v s p => ex_intro _ _ eq_refl) (fun c p => ex_intro _ _ eq_refl)
           badManifest).
Defined.

End ManifestMore.

(* ================================================================== *)
(** * The signer *)

Module SignerFacts.

Section SignerFacts.
Variable Vault : Type.
Variable curve : Vault -> string.
Variable publicKey : Vault -> list byte.
Variable SigAlgo : Type.
Variable Signature : Type.
Variable getSigTypeAttributes : SigAlgo -> result (string * string).
Variable SCHNORR ECDSA : string.
Variable sr25519_Sign ecdsa_Sign : list byte -> Vault -> result Signature.
Variable sr25519_Verify ecdsa_Verify : list byte -> Signature -> list byte -> result bool.

#[local] Abbreviation Sign' := (Sign SCHNORR ECDSA sr25519_Sign ecdsa_Sign).
#[local] Abbreviation Verify' := (Verify publicKey SCHNORR ECDSA sr25519_Verify ecdsa_Verify).

(** X20. A signer is only ever constructed for a signature type whose curve
    is the curve of the vault, and it keeps that vault and the name of that
    type.  When each backend accepts, under the vault's public key, what it
    signed, so does the signer: [Verify] takes the same branch as [Sign]
    did, and both raise "unsupported signature algorithm" for a name that
    is neither. *)
Theorem signer_verifies_what_it_signs (vault : Vault) (sigAlgo : SigAlgo)
    (signer : Signer Vault) :
  newSigner curve getSigTypeAttributes vault sigAlgo = Ok signer ->
  (signingVault signer = vault /\
   getSigTypeAttributes sigAlgo = Ok (sigAlgorithm signer, curve vault)) /\
  ((forall m v s, sr25519_Sign m v = Ok s -> sr25519_Verify m s (publicKey v) = Ok true) ->
   (forall m v s, ecdsa_Sign m v = Ok s -> ecdsa_Verify m s (publicKey v) = Ok true) ->
   forall message signature,
     Sign' signer message = Ok signature ->
     Verify' signer message signature = Ok true) /\
  (String.eqb (sigAlgorithm signer) SCHNORR = false ->
   String.eqb (sigAlgorithm signer) ECDSA = false ->
   forall message signature,
     Sign' signer message = Throw (PlainError "unsupported signature algorithm") /\
     Verify' signer message signature =
       Throw (PlainError "unsupported signature algorithm")).
Proof.
  intros Hnew. unfold newSigner in Hnew. bind_inv Hnew. destruct x as [name c].
  cbn [fst snd] in Hnew.
  destruct (String.eqb c (curve vault)) eqn:Ec; [|discriminate Hnew].
  apply String.eqb_eq in Ec. subst c. cbn [negb] in Hnew. apply Ok_inj in Hnew.
  subst signer. cbn [signingVault sigAlgorithm]. split; [auto|]. split.
  - intros Hsr Hec message signature. unfold Sign, Verify. cbn [signingVault sigAlgorithm].
    destruct (String.eqb name SCHNORR); [apply Hsr|].
    destruct (String.eqb name ECDSA); [apply Hec | discriminate].
  - intros H1 H2 message signature. unfold Sign, Verify. cbn [signingVault sigAlgorithm].
    rewrite H1, H2. auto.
Qed.
End SignerFacts.

Lemma signer_verifies_what_it_signs_witness :
  exists signer signature,
    RefSigner.create "secp256k1" 1 = Ok signer /\
    RefSigner.sign signer [x68; x69] = Ok signature /\
    RefSigner.verify signer [x68; x69] signature = Ok true.
Proof.
  eassert (Hnew : RefSigner.create "secp256k1" 1 = Ok _) by (vm_compute; reflexivity).
  eassert (Hsig : RefSigner.sign {| signingVault := "secp256k1"; sigAlgorithm := "ecdsa" |}
                    [x68; x69] = Ok _) by (vm_compute; reflexivity).
  destruct (@signer_verifies_what_it_signs
              string RefSigner.curve RefSigner.publicKey nat (list byte)
              RefSigner.getSigTypeAttributes "sr25519" "ecdsa"
              (RefSigner.signWith x01) (RefSigner.signWith x02)
              (RefSigner.verifyWith x01) (RefSigner.verifyWith x02)
              "secp256k1" 1 _ Hnew) as [_ [Hver _]].
  eexists. eexists. split; [exact Hnew|]. split; [exact Hsig|].
  apply Hver; [| |exact Hsig].
  - intros m v s Hs. unfold RefSigner.signWith in Hs. apply Ok_inj in Hs. subst s.
    unfold RefSigner.verifyWith, RefSigner.publicKey.
    destruct (list_eq_dec _ _ _); [reflexivity | contradiction].
  - intros m v s Hs. unfold RefSigner.signWith in Hs. apply Ok_inj in Hs. subst s.
    unfold RefSigner.verifyWith, RefSigner.publicKey.
    destruct (list_eq_dec _ _ _); [reflexivity | contradiction].
Defined.

End SignerFacts.
